(** * Formatter: error messages, structural diffs and normalized stack traces

    A shallow embedding of [src/lib/common/Formatter.ts].

    Strings are lists of characters ([list ascii], Latin-1 code units), so
    that [split], [join], [slice] and the regular expressions of the source
    can be written as they are used there.  The regular expressions are kept
    as syntax and run by a backtracking matcher that follows the ECMAScript
    matching order (leftmost start, alternatives and quantifiers tried in
    priority order). *)

From Stdlib Require Import Ascii String.
From Stdlib Require Import List ZArith Lia Bool Arith.
From Stdlib Require Import Numbers.DecimalString.
Import ListNotations.

Set Implicit Arguments.

Local Open Scope list_scope.
Local Open Scope bool_scope.

(* ================================================================= *)
(** ** Strings *)

Definition str : Type := list ascii.

(** A string literal. *)
Definition lit (s : string) : str := list_ascii_of_string s.

Definition LF : ascii := ascii_of_nat 10.
Definition CR : ascii := ascii_of_nat 13.

Definition nonempty_list {A} (l : list A) : bool :=
  match l with [] => false | _ :: _ => true end.

(** Truthiness of a string: the empty string is falsy. *)
Definition nonempty (s : str) : bool :=
  match s with [] => false | _ :: _ => true end.

(** Truthiness of an optional string property: [undefined] and [''] are falsy. *)
Definition truthy (o : option str) : bool :=
  match o with Some s => nonempty s | None => false end.

(** [o || d] on an optional string property. *)
Definition or_default (o : option str) (d : str) : str :=
  match o with
  | Some s => if nonempty s then s else d
  | None => d
  end.

(** [String(o)]: an absent property reads [undefined], which prints as such. *)
Definition String_ (o : option str) : str :=
  match o with Some s => s | None => lit "undefined" end.

Fixpoint str_eqb (a b : str) : bool :=
  match a, b with
  | [], [] => true
  | x :: a', y :: b' => Ascii.eqb x y && str_eqb a' b'
  | _, _ => false
  end.

Fixpoint prefixb (p s : str) : bool :=
  match p, s with
  | [], _ => true
  | x :: p', y :: s' => Ascii.eqb x y && prefixb p' s'
  | _ :: _, [] => false
  end.

(** [s.indexOf(needle)], searching from position [i]; [-1] when absent. *)
Fixpoint indexOf_from (needle s : str) (i : Z) : Z :=
  if prefixb needle s then i
  else match s with
       | [] => (-1)%Z
       | _ :: s' => indexOf_from needle s' (i + 1)%Z
       end.

Definition indexOf (s needle : str) : Z := indexOf_from needle s 0%Z.

(** [s.slice(n)] for [0 <= n]. *)
Definition str_slice (n : nat) (s : str) : str := skipn n s.

(** [s.split(sep)] for a one-character separator. *)
Fixpoint split (sep : ascii) (s : str) : list str :=
  match s with
  | [] => [[]]
  | c :: s' =>
      if Ascii.eqb c sep then [] :: split sep s'
      else match split sep s' with
           | l :: ls => (c :: l) :: ls
           | [] => [[c]]
           end
  end.

(** [a.join(sep)]. *)
Fixpoint join (sep : str) (l : list str) : str :=
  match l with
  | [] => []
  | x :: xs =>
      match xs with
      | [] => x
      | _ :: _ => x ++ sep ++ join sep xs
      end
  end.

(** [a.slice(start, end)] with the relative-index rules of arrays. *)
Definition clamp_index (len i : Z) : Z :=
  if (i <? 0)%Z then Z.max (len + i) 0 else Z.min i len.

Definition array_slice {A} (start stop : Z) (l : list A) : list A :=
  let len := Z.of_nat (length l) in
  let from := clamp_index len start in
  let to := clamp_index len stop in
  firstn (Z.to_nat (to - from)) (skipn (Z.to_nat from) l).

(** The numbers of the model are the safe integers, those between
    [-(2^53 - 1)] and [2^53 - 1]: each of them is a number of the language,
    and its conversion to a string is its decimal notation.  The other
    numbers (fractions, [NaN], the infinities, and the larger ones, whose
    conversion rounds the digits or uses an exponent) are outside the
    model. *)
Definition MAX_SAFE_INTEGER : Z := 9007199254740991.

Definition isSafeInteger (z : Z) : bool := (Z.abs z <=? MAX_SAFE_INTEGER)%Z.

Record SafeInteger : Type := {
  int_of : Z;
  int_safe : isSafeInteger int_of = true
}.

(** [String(n)], also what [':' + n] appends: the digits of [n], with [-]
    in front of a negative number. *)
Definition String_of_number (n : SafeInteger) : str :=
  lit (NilZero.string_of_int (Z.to_int (int_of n))).

(* ================================================================= *)
(** ** Character classes *)

Definition in_range (lo hi : nat) (c : ascii) : bool :=
  (lo <=? nat_of_ascii c) && (nat_of_ascii c <=? hi).

Definition is_char (x : ascii) (c : ascii) : bool := Ascii.eqb c x.

(** Line terminators: LF and CR (U+2028 and U+2029 lie outside Latin-1). *)
Definition is_line_terminator (c : ascii) : bool :=
  is_char LF c || is_char CR c.

(** [\s]: TAB, LF, VT, FF, CR, SPACE and NBSP. *)
Definition is_space (c : ascii) : bool :=
  in_range 9 13 c || (nat_of_ascii c =? 32) || (nat_of_ascii c =? 160).

(** [\w]: [A-Za-z0-9_]. *)
Definition is_word (c : ascii) : bool :=
  in_range 65 90 c || in_range 97 122 c || in_range 48 57 c || (nat_of_ascii c =? 95).

(** [[A-Z]]. *)
Definition is_upper (c : ascii) : bool := in_range 65 90 c.

(** [.]: anything but a line terminator. *)
Definition is_dot (c : ascii) : bool := negb (is_line_terminator c).

(* ================================================================= *)
(** ** Regular expressions *)

Inductive regex : Type :=
| Eps                                  (* the empty pattern *)
| Class (p : ascii -> bool)            (* one character of a class *)
| Seq (r1 r2 : regex)                  (* r1 r2 *)
| Alt (r1 r2 : regex)                  (* r1 | r2 *)
| Star (greedy : bool) (r : regex)     (* r* and r*? *)
| Group (n : nat) (r : regex)          (* the n-th capturing group *)
| Bol                                  (* ^ *)
| Eol                                  (* $ *)
| NegLookahead (r : regex).            (* (?!r) *)

(** Derived forms. *)
Definition Chr (c : ascii) : regex := Class (is_char c).
Definition NotChr (c : ascii) : regex := Class (fun x => negb (is_char c x)).
Definition Plus (greedy : bool) (r : regex) : regex := Seq r (Star greedy r).
Definition Opt (r : regex) : regex := Alt r Eps.

Fixpoint Lit (s : str) : regex :=
  match s with
  | [] => Eps
  | c :: s' => Seq (Chr c) (Lit s')
  end.

(** The state of a match in progress: the input already passed (most recent
    character first), the input still ahead, and the captures made so far. *)
Record mstate : Type := MState {
  consumed : list ascii;
  rest : str;
  caps : list (nat * str)
}.

Definition advance (st : mstate) : option (ascii * mstate) :=
  match rest st with
  | [] => None
  | c :: s' => Some (c, MState (c :: consumed st) s' (caps st))
  end.

Section Matcher.

(** The [m] flag. *)
Variable multiline : bool.

Definition at_bol (st : mstate) : bool :=
  match consumed st with
  | [] => true
  | c :: _ => multiline && is_line_terminator c
  end.

Definition at_eol (st : mstate) : bool :=
  match rest st with
  | [] => true
  | c :: _ => multiline && is_line_terminator c
  end.

(** Iterations of a quantified atom; an iteration that consumes nothing is
    rejected, so the input still ahead bounds the number of iterations. *)
Fixpoint star_iter (step : mstate -> list mstate) (greedy : bool)
         (fuel : nat) (st : mstate) : list mstate :=
  match fuel with
  | 0 => [st]
  | S f =>
      let more :=
        flat_map (fun st' =>
                    if length (rest st') <? length (rest st)
                    then star_iter step greedy f st' else [])
                 (step st) in
      if greedy then more ++ [st] else st :: more
  end.

Definition capture (n : nat) (st st' : mstate) : mstate :=
  MState (consumed st') (rest st')
         ((n, firstn (length (rest st) - length (rest st')) (rest st)) :: caps st').

(** All the ways [r] matches at [st], in the order a backtracking matcher
    tries them. *)
Fixpoint rmatch (r : regex) (st : mstate) : list mstate :=
  match r with
  | Eps => [st]
  | Class p =>
      match advance st with
      | Some (c, st') => if p c then [st'] else []
      | None => []
      end
  | Seq r1 r2 => flat_map (rmatch r2) (rmatch r1 st)
  | Alt r1 r2 => rmatch r1 st ++ rmatch r2 st
  | Star greedy r' => star_iter (rmatch r') greedy (length (rest st)) st
  | Group n r' => map (capture n st) (rmatch r' st)
  | Bol => if at_bol st then [st] else []
  | Eol => if at_eol st then [st] else []
  | NegLookahead r' =>
      match rmatch r' st with
      | [] => [st]
      | _ :: _ => []
      end
  end.

(** A successful match: the text before it (reversed), the matched text,
    the captures and the text after it. *)
Record match_result : Type := MatchResult {
  before : list ascii;
  matched : str;
  groups : list (nat * str);
  after : str
}.

Definition result_of (pre : list ascii) (s : str) (st' : mstate) : match_result :=
  MatchResult pre (firstn (length s - length (rest st')) s) (caps st') (rest st').

(** The first match starting at or after the current position. *)
Fixpoint search (r : regex) (pre : list ascii) (s : str) : option match_result :=
  match rmatch r (MState pre s []) with
  | st' :: _ => Some (result_of pre s st')
  | [] =>
      match s with
      | [] => None
      | c :: s' => search r (c :: pre) s'
      end
  end.

(** [re.exec(s)] for a regular expression without the [g] flag. *)
Definition exec (r : regex) (s : str) : option match_result := search r [] s.

(** [re.test(s)]. *)
Definition test (r : regex) (s : str) : bool :=
  match exec r s with Some _ => true | None => false end.

(** [match[n]]; every group of the patterns below takes part in each of
    their matches. *)
Fixpoint assoc (n : nat) (l : list (nat * str)) : option str :=
  match l with
  | [] => None
  | (k, v) :: l' => if k =? n then Some v else assoc n l'
  end.

Definition grp (n : nat) (m : match_result) : str :=
  match assoc n (groups m) with Some v => v | None => [] end.

(** [s.replace(re, f)] without the [g] flag: the first match only. *)
Definition replace_first (r : regex) (f : match_result -> str) (s : str) : str :=
  match exec r s with
  | Some m => rev (before m) ++ f m ++ after m
  | None => s
  end.

(** [s.replace(re, f)] with the [g] flag: every position is tried in turn;
    after a match the scan resumes where the match ended, one character
    further when the match was empty. *)
Fixpoint replace_from (fuel : nat) (r : regex) (f : match_result -> str)
         (pre : list ascii) (s : str) : str :=
  match fuel with
  | 0 => s
  | S fuel' =>
      match rmatch r (MState pre s []) with
      | st' :: _ =>
          let m := result_of pre s st' in
          f m ++
          match matched m, rest st' with
          | [], c :: s' => c :: replace_from fuel' r f (c :: consumed st') s'
          | [], [] => []
          | _ :: _, _ => replace_from fuel' r f (consumed st') (rest st')
          end
      | [] =>
          match s with
          | [] => []
          | c :: s' => c :: replace_from fuel' r f (c :: pre) s'
          end
      end
  end.

Definition replace_all (r : regex) (f : match_result -> str) (s : str) : str :=
  replace_from (S (length s)) r f [] s.

End Matcher.

Declare Scope regex_scope.
Delimit Scope regex_scope with re.
Bind Scope regex_scope with regex.
Notation "r1 >> r2" := (Seq r1 r2) (at level 61, right associativity) : regex_scope.

Definition newline : str := [LF].

(* ================================================================= *)
(** ** The patterns of the source

    In the comments a blank is put inside a group that ends in a star, to
    keep the comment well formed; the patterns have none there. *)

Local Open Scope regex_scope.

(** [/\s+$/] *)
Definition re_trailing_space : regex :=
  Plus true (Class is_space) >> Eol.

(** [/^(?:[A-Z]\w+)?Error: /] *)
Definition re_error_name : regex :=
  Bol >> Opt (Class is_upper >> Plus true (Class is_word)) >> Lit (lit "Error: ").

(** [/^\s*$/] *)
Definition re_blank : regex :=
  Bol >> Star true (Class is_space) >> Eol.

(** [/^\s*at /] *)
Definition re_at : regex :=
  Bol >> Star true (Class is_space) >> Lit (lit "at ").

(** [/internal\/process\//] *)
Definition re_internal_process : regex := Lit (lit "internal/process/").

(** [/node_modules\/(?!digdug|leadfoot)/] *)
Definition re_node_modules : regex :=
  Lit (lit "node_modules/") >>
  NegLookahead (Alt (Lit (lit "digdug")) (Lit (lit "leadfoot"))).

(** [/Module\.runMain/] *)
Definition re_run_main : regex := Lit (lit "Module.runMain").

(** [/bootstrap_node\.js/] *)
Definition re_bootstrap_node : regex := Lit (lit "bootstrap_node.js").

(** [/^\s*at (.+?) \(([^)]+)\)$/] *)
Definition re_chrome_call : regex :=
  Bol >> Star true (Class is_space) >> Lit (lit "at ") >>
  Group 1 (Plus false (Class is_dot)) >> Lit (lit " (") >>
  Group 2 (Plus true (NotChr ")")) >> Chr ")" >> Eol.

(** [/^\s*at ( .* )/] *)
Definition re_chrome_plain : regex :=
  Bol >> Star true (Class is_space) >> Lit (lit "at ") >>
  Group 1 (Star true (Class is_dot)).

(** [/^([^@]+)@( .* )/] *)
Definition re_safari_call : regex :=
  Bol >> Group 1 (Plus true (NotChr "@")) >> Chr "@" >>
  Group 2 (Star true (Class is_dot)).

(** [/^( \w+:\/\/.* )/] *)
Definition re_safari_url : regex :=
  Bol >> Group 1 (Plus true (Class is_word) >> Lit (lit "://") >>
                  Star true (Class is_dot)).

(** [/\S/] *)
Definition re_non_space : regex := Class (fun c => negb (is_space c)).

(** [/^@@[^@]*@@$/gm] *)
Definition re_hunk_range : regex :=
  Bol >> Lit (lit "@@") >> Star true (NotChr "@") >> Lit (lit "@@") >> Eol.

(** [/^([+-]?)( .* )$/gm] *)
Definition re_diff_line : regex :=
  Bol >> Group 1 (Opt (Class (fun c => is_char "+" c || is_char "-" c))) >>
  Group 2 (Star true (Class is_dot)) >> Eol.

Local Close Scope regex_scope.

(* ================================================================= *)
(** ** Values and errors *)

(** The values an error may carry in [actual], [expected] and [showDiff];
    numbers are the safe integers. *)
#[warnings="-register-all"]
Inductive value : Type :=
| VUndefined
| VNull
| VBool (b : bool)
| VNumber (n : SafeInteger)
| VString (s : str)
| VObject (props : list (str * value))
| VArray (items : list value).

(** [typeof v] *)
Definition typeof (v : value) : str :=
  match v with
  | VUndefined => lit "undefined"
  | VNull => lit "object"
  | VBool _ => lit "boolean"
  | VNumber _ => lit "number"
  | VString _ => lit "string"
  | VObject _ => lit "object"
  | VArray _ => lit "object"
  end.

(** Truthiness of a value. *)
Definition js_truthy (v : value) : bool :=
  match v with
  | VUndefined => false
  | VNull => false
  | VBool b => b
  | VNumber n => negb (int_of n =? 0)%Z
  | VString s => nonempty s
  | VObject _ => true
  | VArray _ => true
  end.

(** The primitive values of the language: everything but objects. *)
Definition is_primitive (v : value) : bool :=
  match v with
  | VObject _ | VArray _ => false
  | _ => true
  end.

(** The properties [format] reads from an error object; an absent property
    is [None] (or [VUndefined]). *)
Record InternError : Type := {
  name : option str;
  message : option str;
  stack : option str;
  showDiff : value;
  actual : value;
  expected : value;
  fileName : option str;
  lineNumber : option SafeInteger;
  columnNumber : option SafeInteger
}.

(** [string | Error | InternError] *)
Inductive ErrorLike : Type :=
| ErrString (s : str)
| ErrObject (e : InternError).

Record FormatOptions : Type := { space : option str }.

(** [(options || {}).space] *)
Definition spaceOf (options : option FormatOptions) : option str :=
  match options with Some o => space o | None => None end.

(** [Partial<FormatterProperties>] *)
Record FormatterOptions : Type := { opt_filterErrorStack : option bool }.

(** A formatter: its property and its overridable [_getSource] method. *)
Record Formatter : Type := {
  filterErrorStack : bool;
  _getSource : str -> str
}.

(** [new Formatter(options)]: the field initializer [filterErrorStack = false],
    then [mixin(this, options)] copies the properties [options] has. *)
Definition new_Formatter (options : option FormatterOptions) : Formatter :=
  let options := match options with Some o => o | None => Build_FormatterOptions None end in
  {| filterErrorStack :=
       match opt_filterErrorStack options with Some b => b | None => false end;
     _getSource := fun tracepath => tracepath |}.

(* ================================================================= *)
(** ** Stack traces *)

Record Frame : Type := { func : option str; source : str }.

(** Return a trace line in a standardized format. *)
Definition formatLine (data : Frame) (getSource : str -> str) : str :=
  if negb (truthy (func data)) then
    lit "  at <" ++ getSource (source data) ++ lit ">"
  else
    lit "  at " ++ String_ (func data) ++ lit "  <" ++ getSource (source data) ++ lit ">".

(** Process Chrome, Opera, and IE traces. *)
Definition chromeLine (getSource : str -> str) (line : str) : str :=
  match exec false re_chrome_call line with
  | Some m => formatLine {| func := Some (grp 1 m); source := grp 2 m |} getSource
  | None =>
      match exec false re_chrome_plain line with
      | Some m => formatLine {| func := None; source := grp 1 m |} getSource
      | None => line
      end
  end.

Definition processChromeTrace (lines : list str) (getSource : str -> str) : list str :=
  map (chromeLine getSource) lines.

(** Process Safari and Firefox traces. *)
Definition safariLine (getSource : str -> str) (line : str) : str :=
  match exec false re_safari_call line with
  | Some m => formatLine {| func := Some (grp 1 m); source := grp 2 m |} getSource
  | None =>
      match exec false re_safari_url line with
      | Some m => formatLine {| func := None; source := grp 1 m |} getSource
      | None => line
      end
  end.

Definition processSafariTrace (lines : list str) (getSource : str -> str) : list str :=
  map (safariLine getSource) lines.

(** [lines[0]] as a pattern sees it: [undefined] when the array is empty. *)
Definition line0 (lines : list str) : str := nth 0 lines (lit "undefined").

(** [stack.replace(/\s+$/, '').split('\n')] *)
Definition stackLinesOf (stack : str) : list str :=
  split LF (replace_first false re_trailing_space (fun _ => []) stack).

(** The error-name line, when the first line is one. *)
Definition hasErrorName (lines : list str) : bool :=
  test false re_error_name (line0 lines).

(** [while (/^\s*$/.test(lines[0])) lines = lines.slice(1)] *)
Fixpoint stripBlank (lines : list str) : list str :=
  if test false re_blank (line0 lines) then
    match lines with
    | [] => []
    | _ :: lines' => stripBlank lines'
    end
  else lines.

(** The lines handed to the dialect parser. *)
Definition contentLines (stack : str) : list str :=
  let lines := stackLinesOf stack in
  stripBlank (if hasErrorName lines then tl lines else lines).

(** The dialect parser chosen by the first content line, applied to all lines. *)
Definition parseLines (lines : list str) (getSource : str -> str) : list str :=
  if test false re_at (line0 lines)
  then processChromeTrace lines getSource
  else processSafariTrace lines getSource.

(** The filter callback of [normalizeStackTrace], before its negation. *)
Definition isNoise (line : str) : bool :=
  test false re_internal_process line ||
  test false re_node_modules line ||
  test false re_run_main line ||
  test false re_bootstrap_node line.

(** The lines [normalizeStackTrace] joins: parsed, then filtered on demand. *)
Definition normalizedLines (stack : str) (filterStack : bool)
           (getSource : str -> str) : list str :=
  let stackLines := parseLines (contentLines stack) getSource in
  if filterStack then filter (fun line => negb (isNoise line)) stackLines
  else stackLines.

(** The preserved first line, [''] when the stack has no error-name line. *)
Definition firstLineOf (stack : str) : str :=
  let lines := stackLinesOf stack in
  if hasErrorName lines then line0 lines ++ newline else [].

(** Parse a stack trace, apply any source mappings, and normalize its format. *)
Definition normalizeStackTrace (stack : str) (filterStack : bool)
           (getSource : str -> str) : str :=
  newline ++ firstLineOf stack ++ join newline (normalizedLines stack filterStack getSource).

(* ================================================================= *)
(** ** Diffs and messages *)

Section Format.

(** [toJSON] of [./util], the serializer of the values to compare. *)
Variable toJSON : value -> str.

(** [createPatch(fileName, oldStr, newStr, oldHeader, newHeader)] of the
    [diff] package. *)
Variable createPatch : str -> str -> str -> str -> str -> str.

(** [String(error)] for an error object. *)
Variable String_of_error : InternError -> str.

(** The callback of the second replacement of [createDiff]. *)
Definition recode (m : match_result) : str :=
  let indicator := grp 1 m in
  let line := grp 2 m in
  if str_eqb line (lit "[...]") then line
  else (if str_eqb indicator (lit "+") then lit "E"
        else if str_eqb indicator (lit "-") then lit "A"
        else []) ++ lit " " ++ line.

(** What [createDiff] does to the text of the patch. *)
Definition renderPatch (patch : str) : str :=
  let diff :=
    replace_all true re_hunk_range (fun _ => lit "[...]")
                (join newline (array_slice 5 (-1) (split LF patch))) in
  if nonempty diff then replace_all true re_diff_line recode diff else diff.

(** Creates a unified diff to explain the difference between two objects. *)
Definition createDiff (actual expected : value) : str :=
  let actual := toJSON actual in
  let expected := toJSON expected in
  renderPatch (createPatch [] (actual ++ newline) (expected ++ newline) [] []).

(** [(error.name || 'Error') + ': ' + (error.message || 'Unknown error')] *)
Definition header (error : InternError) : str :=
  or_default (name error) (lit "Error") ++ lit ": " ++
  or_default (message error) (lit "Unknown error").

(** The stack without the copy of the message the engine put in front. *)
Definition dedupe (error : InternError) (stack : str) : str :=
  if (indexOf stack (header error) =? 0)%Z then
    str_slice (length (header error)) stack
  else if (indexOf stack (String_ (message error)) =? 0)%Z then
    str_slice (length (String_ (message error))) stack
  else stack.

(** The local [stack] after the block that normalizes it. *)
Definition stackOf (self : Formatter) (error : InternError) : option str :=
  if truthy (stack error) then
    Some (normalizeStackTrace (dedupe error (String_ (stack error)))
                              (filterErrorStack self) (_getSource self))
  else stack error.

(** The guard of the diff. *)
Definition wantsDiff (error : InternError) : bool :=
  js_truthy (showDiff error) &&
  str_eqb (typeof (actual error)) (lit "object") &&
  str_eqb (typeof (expected error)) (lit "object").

(** What the diff step appends to the message. *)
Definition diffSection (error : InternError) : str :=
  if wantsDiff error then
    let diff := createDiff (actual error) (expected error) in
    if nonempty diff then newline ++ newline ++ diff ++ newline else []
  else [].

(** [stack && /\S/.test(stack)] *)
Definition usable (stack : option str) : bool :=
  truthy stack && test false re_non_space (String_ stack).

(** What the last step appends: the stack, the location or a marker. *)
Definition trailer (error : InternError) (stack : option str) : str :=
  if usable stack then String_ stack
  else if truthy (fileName error) then
    newline ++ lit "  at " ++ String_ (fileName error) ++
    match lineNumber error with
    | Some line =>
        lit ":" ++ String_of_number line ++
        match columnNumber error with
        | Some column => lit ":" ++ String_of_number column
        | None => []
        end
    | None => []
    end ++
    newline ++ lit "No stack"
  else newline ++ lit "No stack or location".

(** The message before the indentation. *)
Definition compose (self : Formatter) (error : ErrorLike) : str :=
  match error with
  | ErrString s => s
  | ErrObject e =>
      if truthy (message e) || truthy (stack e) then
        header e ++ diffSection e ++ trailer e (stackOf self e)
      else String_of_error e
  end.

(** [message.split('\n').map(line => space + line).join('\n')] when
    [space] is set. *)
Definition indent (space : option str) (message : str) : str :=
  match space with
  | Some sp => join newline (map (fun line => sp ++ line) (split LF message))
  | None => message
  end.

(** Generates a full error message from a plain Error object, avoiding
    duplicate error messages that might be caused by different opinions on
    what a stack trace should look like. *)
Definition format (self : Formatter) (error : ErrorLike)
           (options : option FormatOptions) : str :=
  indent (spaceOf options) (compose self error).

End Format.

(* ================================================================= *)
(** ** Sample collaborators and errors, to run the definitions on *)

Module Sample.

(** A number of the model from an integer; [0] when the integer is not a
    safe one. *)
Definition int (z : Z) : SafeInteger :=
  match isSafeInteger z as b return isSafeInteger z = b -> SafeInteger with
  | true => fun H => {| int_of := z; int_safe := H |}
  | false => fun _ => {| int_of := 0; int_safe := eq_refl |}
  end eq_refl.

Definition hex_digit (n : nat) : ascii :=
  nth n (lit "0123456789abcdef") "0"%char.

(** A character inside a quoted string. *)
Definition escape (c : ascii) : str :=
  let n := nat_of_ascii c in
  if (n =? 34) || (n =? 92) then [ascii_of_nat 92; c]
  else if n =? 8 then ascii_of_nat 92 :: lit "b"
  else if n =? 9 then ascii_of_nat 92 :: lit "t"
  else if n =? 10 then ascii_of_nat 92 :: lit "n"
  else if n =? 12 then ascii_of_nat 92 :: lit "f"
  else if n =? 13 then ascii_of_nat 92 :: lit "r"
  else if n <? 32 then ascii_of_nat 92 :: lit "u00" ++ [hex_digit (n / 16); hex_digit (n mod 16)]
  else [c].

Definition quote (s : str) : str :=
  [ascii_of_nat 34] ++ flat_map escape s ++ [ascii_of_nat 34].

(** The text of a value, on one line; there is none for [undefined], which
    is printed as [null] inside an array and left out of an object. *)
Fixpoint stringify (v : value) : option str :=
  match v with
  | VUndefined => None
  | VNull => Some (lit "null")
  | VBool b => Some (if b then lit "true" else lit "false")
  | VNumber n => Some (String_of_number n)
  | VString s => Some (quote s)
  | VObject props =>
      Some (lit "{" ++
            join (lit ",")
                 (flat_map (fun kv =>
                              match stringify (snd kv) with
                              | Some t => [quote (fst kv) ++ lit ":" ++ t]
                              | None => []
                              end) props) ++
            lit "}")
  | VArray items =>
      Some (lit "[" ++
            join (lit ",")
                 (map (fun item =>
                         match stringify item with
                         | Some t => t
                         | None => lit "null"
                         end) items) ++
            lit "]")
  end.

(** A stand-in for the serializer of [./util], which the sources do not
    hold: the value as JSON text on one line. *)
Definition toJSON (v : value) : str :=
  match stringify v with
  | Some t => t
  | None => lit "undefined"
  end.

(** A patch of two one-line texts that differ: four header lines, the
    range of the first hunk, the removed and the added line, and the empty
    line after the last line break. *)
Definition createPatch (fileName oldStr newStr oldHeader newHeader : str) : str :=
  lit "Index: " ++ newline ++
  lit "===================================================================" ++ newline ++
  lit "--- " ++ newline ++
  lit "+++ " ++ newline ++
  lit "@@ -1,1 +1,1 @@" ++ newline ++
  lit "-" ++ oldStr ++ lit "+" ++ newStr.

Definition String_of_error (e : InternError) : str := lit "[object Object]".

Definition withStack (n m s : string) : InternError :=
  {| name := Some (lit n); message := Some (lit m); stack := Some (lit s);
     showDiff := VUndefined; actual := VUndefined; expected := VUndefined;
     fileName := None; lineNumber := None; columnNumber := None |}.

Definition withDiff (a e : value) : InternError :=
  {| name := Some (lit "AssertionError"); message := Some (lit "expected");
     stack := None; showDiff := VBool true; actual := a; expected := e;
     fileName := None; lineNumber := None; columnNumber := None |}.

Definition withLocation (f : string) (l c : option Z) : InternError :=
  {| name := None; message := Some (lit "boom"); stack := None;
     showDiff := VUndefined; actual := VUndefined; expected := VUndefined;
     fileName := Some (lit f); lineNumber := option_map int l;
     columnNumber := option_map int c |}.

Definition format := format toJSON createPatch String_of_error.

End Sample.

(* ================================================================= *)
(** ** Facts about strings *)

Unset Implicit Arguments.

Lemma prefixb_app (p r : str) : prefixb p (p ++ r) = true.
Proof.
  induction p as [|c p IH]; simpl; [reflexivity|].
  now rewrite Ascii.eqb_refl, IH.
Qed.

Lemma prefixb_true (p s : str) :
  prefixb p s = true -> exists r, s = p ++ r.
Proof.
  revert s; induction p as [|c p IH]; intros s H; simpl in *.
  - now exists s.
  - destruct s as [|d s]; [discriminate|].
    apply andb_true_iff in H as [Hc Hp].
    apply Ascii.eqb_eq in Hc; subst d.
    destruct (IH _ Hp) as [r ->]. now exists r.
Qed.

Lemma indexOf_from_range (needle s : str) (i : Z) :
  indexOf_from needle s i = (-1)%Z \/ (i <= indexOf_from needle s i)%Z.
Proof.
  revert i; induction s as [|c s IH]; intros i; simpl.
  - destruct (prefixb needle []); [right; lia | now left].
  - destruct (prefixb needle (c :: s)); [right; lia|].
    destruct (IH (i + 1)%Z) as [H|H]; [now left | right; lia].
Qed.

(** [s.indexOf(p) === 0] says that [s] begins with [p]. *)
Lemma indexOf_zero (s p : str) :
  (indexOf s p =? 0)%Z = prefixb p s.
Proof.
  unfold indexOf.
  destruct s as [|c s]; simpl.
  - now destruct (prefixb p []).
  - destruct (prefixb p (c :: s)); [reflexivity|].
    change (0 + 1)%Z with 1%Z.
    destruct (indexOf_from_range p s 1) as [H|H]; [now rewrite H|].
    apply Z.eqb_neq; lia.
Qed.

Lemma skipn_app_exact {A} (p r : list A) : skipn (length p) (p ++ r) = r.
Proof. induction p; simpl; auto. Qed.

Lemma str_eqb_eq (a b : str) : str_eqb a b = true <-> a = b.
Proof.
  revert b; induction a as [|x a IH]; intros [|y b]; simpl; split; intros H;
    try reflexivity; try discriminate.
  - apply andb_true_iff in H as [H1 H2].
    apply Ascii.eqb_eq in H1. apply IH in H2. now subst.
  - injection H as -> ->. rewrite Ascii.eqb_refl. now apply IH.
Qed.

(** The number of positions of [s] at which [needle] occurs. *)
Fixpoint occurrences (needle s : str) : nat :=
  (if prefixb needle s then 1 else 0) +
  match s with
  | [] => 0
  | _ :: s' => occurrences needle s'
  end.

(* ================================================================= *)
(** ** Facts about the matcher *)

(** [st'] lies further along the same input as [st]. *)
Definition reaches (st st' : mstate) : Prop :=
  exists x, rest st = x ++ rest st' /\ consumed st' = rev x ++ consumed st.

(** [v] is a piece of [s]. *)
Definition infix (v s : str) : Prop := exists a b, s = a ++ v ++ b.

(** The captures of [st'] are those of [st] or pieces of the input ahead of [st]. *)
Definition caps_from (st st' : mstate) : Prop :=
  forall n v, In (n, v) (caps st') -> In (n, v) (caps st) \/ infix v (rest st).

Lemma reaches_refl st : reaches st st.
Proof. now exists []. Qed.

Lemma reaches_trans st1 st2 st3 :
  reaches st1 st2 -> reaches st2 st3 -> reaches st1 st3.
Proof.
  intros [x [Hx Hc]] [y [Hy Hd]]. exists (x ++ y). split.
  - now rewrite Hx, Hy, app_assoc.
  - now rewrite Hd, Hc, rev_app_distr, app_assoc.
Qed.

Lemma caps_from_refl st : caps_from st st.
Proof. intros n v H. now left. Qed.

Lemma infix_app_r (v s x : str) : infix v s -> infix v (x ++ s).
Proof.
  intros [a [b ->]]. exists (x ++ a), b. now rewrite <- app_assoc.
Qed.

Lemma caps_from_trans st1 st2 st3 :
  reaches st1 st2 -> caps_from st1 st2 -> caps_from st2 st3 -> caps_from st1 st3.
Proof.
  intros [x [Hx _]] H12 H23 n v H.
  destruct (H23 n v H) as [H2|H2].
  - now apply H12.
  - right. rewrite Hx. now apply infix_app_r.
Qed.

Lemma firstn_app_exact {A} (x y : list A) :
  firstn (length (x ++ y) - length y) (x ++ y) = x.
Proof.
  rewrite length_app.
  replace (length x + length y - length y) with (length x) by lia.
  rewrite firstn_app, Nat.sub_diag, firstn_all. simpl. apply app_nil_r.
Qed.

Section MatcherFacts.

Variable multiline : bool.

Local Abbreviation rmatch := (rmatch multiline).

Definition moves (step : mstate -> list mstate) : Prop :=
  forall st st', In st' (step st) -> reaches st st' /\ caps_from st st'.

Lemma star_iter_moves step greedy :
  moves step -> forall fuel, moves (star_iter step greedy fuel).
Proof.
  intros Hstep fuel; induction fuel as [|f IH]; intros st st' Hin; simpl in Hin.
  - destruct Hin as [<-|[]]. split; [apply reaches_refl | apply caps_from_refl].
  - assert (Hmore : In st' (flat_map
              (fun st'0 => if length (rest st'0) <? length (rest st)
                           then star_iter step greedy f st'0 else []) (step st))
            \/ st' = st).
    { destruct greedy.
      - apply in_app_or in Hin as [H|[<-|[]]]; auto.
      - destruct Hin as [<-|H]; auto. }
    destruct Hmore as [H| ->].
    + apply in_flat_map in H as [mid [Hmid H]].
      destruct (length (rest mid) <? length (rest st)); [|destruct H].
      destruct (Hstep _ _ Hmid) as [R1 C1].
      destruct (IH _ _ H) as [R2 C2].
      split; [eapply reaches_trans | eapply caps_from_trans]; eauto.
    + split; [apply reaches_refl | apply caps_from_refl].
Qed.

(** The matcher only moves forward along the input, and what it captures
    are pieces of the input. *)
Lemma rmatch_moves (r : regex) : moves (rmatch r).
Proof.
  induction r as [|p|r1 IH1 r2 IH2|r1 IH1 r2 IH2|g r IH|n r IH| | |r IH];
    intros st st' Hin; simpl in Hin.
  - destruct Hin as [<-|[]]. split; [apply reaches_refl | apply caps_from_refl].
  - unfold advance in Hin. destruct st as [pre s cs]; simpl in *.
    destruct s as [|c s]; [destruct Hin|].
    destruct (p c); [|destruct Hin]. destruct Hin as [<-|[]]. split.
    + now exists [c].
    + intros k v H. now left.
  - apply in_flat_map in Hin as [mid [H1 H2]].
    destruct (IH1 _ _ H1) as [R1 C1]. destruct (IH2 _ _ H2) as [R2 C2].
    split; [eapply reaches_trans | eapply caps_from_trans]; eauto.
  - apply in_app_or in Hin as [H|H]; [now apply IH1 | now apply IH2].
  - eapply star_iter_moves; eauto.
  - apply in_map_iff in Hin as [mid [<- H]].
    destruct (IH _ _ H) as [R C]. split.
    + destruct R as [x [Hx Hc]]. now exists x.
    + intros k v [E|Hk]; simpl in *.
      * injection E as _ <-. right.
        destruct R as [x [Hx Hc]]. rewrite Hx, firstn_app_exact.
        exists [], (rest mid). reflexivity.
      * now apply C.
  - destruct (at_bol multiline st); [|destruct Hin].
    destruct Hin as [<-|[]]. split; [apply reaches_refl | apply caps_from_refl].
  - destruct (at_eol multiline st); [|destruct Hin].
    destruct Hin as [<-|[]]. split; [apply reaches_refl | apply caps_from_refl].
  - destruct (rmatch r st); [|destruct Hin].
    destruct Hin as [<-|[]]. split; [apply reaches_refl | apply caps_from_refl].
Qed.

(** The results of a starred character class, written out. *)
Fixpoint star_class (greedy : bool) (p : ascii -> bool) (pre : list ascii)
         (s : str) (cs : list (nat * str)) : list mstate :=
  let here := MState pre s cs in
  match s with
  | c :: s' =>
      if p c then
        if greedy then star_class greedy p (c :: pre) s' cs ++ [here]
        else here :: star_class greedy p (c :: pre) s' cs
      else [here]
  | [] => [here]
  end.

Lemma star_iter_class greedy p s : forall fuel pre cs,
  length s <= fuel ->
  star_iter (rmatch (Class p)) greedy fuel (MState pre s cs) =
  star_class greedy p pre s cs.
Proof.
  induction s as [|c s IH]; intros fuel pre cs Hf.
  - destruct fuel; simpl; [reflexivity|]. now destruct greedy.
  - destruct fuel as [|f]; simpl in Hf; [lia|].
    simpl. unfold advance; simpl.
    destruct (p c); simpl.
    + assert (L : (length s <? S (length s)) = true) by (apply Nat.ltb_lt; lia).
      rewrite L, app_nil_r, IH by lia. reflexivity.
    + now destruct greedy.
Qed.

Lemma rmatch_star_class greedy p pre s cs :
  rmatch (Star greedy (Class p)) (MState pre s cs) = star_class greedy p pre s cs.
Proof. simpl. now apply star_iter_class. Qed.

Lemma rmatch_Lit (p : str) : forall pre s cs,
  rmatch (Lit p) (MState pre s cs) =
  if prefixb p s then [MState (rev p ++ pre) (skipn (length p) s) cs] else [].
Proof.
  induction p as [|c p IH]; intros pre s cs; simpl; [reflexivity|].
  unfold advance; simpl. destruct s as [|d s]; simpl; [reflexivity|].
  unfold is_char. rewrite (Ascii.eqb_sym c d).
  destruct (Ascii.eqb d c) eqn:E; simpl; [|reflexivity].
  apply Ascii.eqb_eq in E; subst d.
  rewrite app_nil_r, IH, <- app_assoc. reflexivity.
Qed.

Lemma rmatch_Seq_Lit (p : str) (r : regex) pre s cs :
  rmatch (Seq (Lit p) r) (MState pre s cs) =
  if prefixb p s then rmatch r (MState (rev p ++ pre) (skipn (length p) s) cs) else [].
Proof.
  change (rmatch (Seq (Lit p) r) (MState pre s cs))
    with (flat_map (rmatch r) (rmatch (Lit p) (MState pre s cs))).
  rewrite rmatch_Lit. destruct (prefixb p s); simpl; [apply app_nil_r | reflexivity].
Qed.

Lemma rmatch_Seq_Bol (r : regex) st :
  rmatch (Seq Bol r) st = if at_bol multiline st then rmatch r st else [].
Proof.
  simpl. destruct (at_bol multiline st); simpl; [apply app_nil_r | reflexivity].
Qed.

(** [test] of a single character class looks for one such character. *)
Lemma search_Class p : forall s pre,
  (match search multiline (Class p) pre s with Some _ => true | None => false end)
  = existsb p s.
Proof.
  induction s as [|c s IH]; intros pre; simpl; [reflexivity|].
  unfold advance; simpl. destruct (p c); simpl; [reflexivity | apply IH].
Qed.

Lemma test_Class p s : test multiline (Class p) s = existsb p s.
Proof. apply search_Class. Qed.

End MatcherFacts.

(** Without the [m] flag a pattern that begins with [^] matches at the
    start of the input or not at all. *)
Lemma search_Bol_later (r : regex) : forall s pre,
  pre <> [] -> search false (Seq Bol r) pre s = None.
Proof.
  induction s as [|c s IH]; intros pre Hpre; simpl;
    destruct pre as [|d pre]; try congruence; simpl.
  - reflexivity.
  - apply IH. discriminate.
Qed.

Lemma exec_Bol (r : regex) (s : str) :
  exec false (Seq Bol r) s =
  match rmatch false r (MState [] s []) with
  | st' :: _ => Some (result_of [] s st')
  | [] => None
  end.
Proof.
  unfold exec. destruct s as [|c s]; simpl; rewrite app_nil_r.
  - now destruct (rmatch false r _).
  - destruct (rmatch false r _); [|reflexivity].
    apply search_Bol_later. discriminate.
Qed.

Lemma test_Bol (r : regex) (s : str) :
  test false (Seq Bol r) s = nonempty_list (rmatch false r (MState [] s [])).
Proof.
  unfold test. rewrite exec_Bol. now destruct (rmatch false r _).
Qed.

(* ================================================================= *)
(** ** Blank lines and usable stacks *)

(** [/^\s*$/] holds of the strings made of white space only. *)
Lemma blank_results p : forall s pre cs,
  flat_map (rmatch false Eol) (star_class true p pre s cs) =
  if forallb p s then [MState (rev s ++ pre) [] cs] else [].
Proof.
  induction s as [|c s IH]; intros pre cs; simpl; [reflexivity|].
  destruct (p c); simpl; [|reflexivity].
  rewrite flat_map_app, IH; simpl.
  rewrite <- app_assoc. simpl. now destruct (forallb p s).
Qed.

Lemma test_blank (s : str) : test false re_blank s = forallb is_space s.
Proof.
  unfold re_blank. rewrite test_Bol.
  change (rmatch false (Seq (Star true (Class is_space)) Eol) (MState [] s []))
    with (flat_map (rmatch false Eol)
                   (rmatch false (Star true (Class is_space)) (MState [] s []))).
  rewrite rmatch_star_class, blank_results. now destruct (forallb is_space s).
Qed.

(** [/\S/] holds of the strings with a character that is not white space. *)
Lemma test_non_space (s : str) :
  test false re_non_space s = existsb (fun c => negb (is_space c)) s.
Proof. apply test_Class. Qed.

Definition has_text (s : str) : bool := existsb (fun c => negb (is_space c)) s.

Lemma has_text_app_l (a b : str) : has_text a = true -> has_text (a ++ b) = true.
Proof. unfold has_text. rewrite existsb_app. now intros ->. Qed.

Lemma has_text_app_r (a b : str) : has_text b = true -> has_text (a ++ b) = true.
Proof. unfold has_text. rewrite existsb_app. intros ->. apply orb_true_r. Qed.

Lemma has_text_not_blank (s : str) : forallb is_space s = false -> has_text s = true.
Proof.
  unfold has_text. induction s as [|c s IH]; simpl; [discriminate|].
  destruct (is_space c); simpl; auto.
Qed.

Lemma blank_no_text (s : str) :
  (forall c, In c s -> is_space c = true) -> has_text s = false.
Proof.
  unfold has_text. induction s as [|c s IH]; intros H; simpl; [reflexivity|].
  rewrite (H c) by now left. simpl. apply IH. intros d Hd. apply H. now right.
Qed.

Lemma stripBlank_cons (l : str) (lines : list str) :
  stripBlank (l :: lines) = if test false re_blank l then stripBlank lines else l :: lines.
Proof. reflexivity. Qed.

(** After the loop the first line, if any, is not blank. *)
Lemma stripBlank_head (lines : list str) (x : str) (t : list str) :
  stripBlank lines = x :: t -> forallb is_space x = false.
Proof.
  induction lines as [|l lines IH]; [discriminate|].
  rewrite stripBlank_cons. destruct (test false re_blank l) eqn:E; [exact IH|].
  intros H. injection H as <- _. now rewrite <- test_blank.
Qed.

Lemma formatLine_has_text (data : Frame) (g : str -> str) :
  has_text (formatLine data g) = true.
Proof. unfold formatLine. now destruct (negb (truthy (func data))). Qed.

Lemma chromeLine_has_text (g : str -> str) (l : str) :
  has_text l = true -> has_text (chromeLine g l) = true.
Proof.
  intros H. unfold chromeLine.
  destruct (exec false re_chrome_call l); [apply formatLine_has_text|].
  destruct (exec false re_chrome_plain l); [apply formatLine_has_text | exact H].
Qed.

Lemma safariLine_has_text (g : str -> str) (l : str) :
  has_text l = true -> has_text (safariLine g l) = true.
Proof.
  intros H. unfold safariLine.
  destruct (exec false re_safari_call l); [apply formatLine_has_text|].
  destruct (exec false re_safari_url l); [apply formatLine_has_text | exact H].
Qed.

Lemma join_cons_has_text (sep x : str) (xs : list str) :
  has_text x = true -> has_text (join sep (x :: xs)) = true.
Proof.
  intros H. simpl. destruct xs; [exact H | now apply has_text_app_l].
Qed.

(** When the parser is handed any line at all, what it returns has text. *)
Lemma parsed_has_text (stack : str) (g : str -> str) :
  parseLines (contentLines stack) g <> [] ->
  has_text (join newline (parseLines (contentLines stack) g)) = true.
Proof.
  unfold contentLines.
  set (lines := if hasErrorName (stackLinesOf stack)
                then tl (stackLinesOf stack) else stackLinesOf stack).
  destruct (stripBlank lines) as [|x t] eqn:E.
  - unfold parseLines. now destruct (test false re_at (line0 [])).
  - intros _. apply stripBlank_head in E. apply has_text_not_blank in E.
    unfold parseLines.
    destruct (test false re_at (line0 (x :: t)));
      unfold processChromeTrace, processSafariTrace;
      rewrite map_cons; apply join_cons_has_text;
      [now apply chromeLine_has_text | now apply safariLine_has_text].
Qed.

Lemma usable_Some (s : str) : usable (Some s) = nonempty s && has_text s.
Proof. unfold usable. simpl. now rewrite test_non_space. Qed.

Lemma usable_normalized (stack : str) (g : str -> str) :
  parseLines (contentLines stack) g <> [] ->
  usable (Some (normalizeStackTrace stack false g)) = true.
Proof.
  intros H. rewrite usable_Some. unfold normalizeStackTrace, normalizedLines.
  simpl. apply has_text_app_r with (a := [LF]). apply has_text_app_r.
  now apply parsed_has_text.
Qed.

(** A stack that is absent, empty or white space only. *)
Definition no_text (stack : option str) : Prop :=
  match stack with
  | None => True
  | Some s => forall c, In c s -> is_space c = true
  end.

Lemma usable_no_text (stack : option str) : no_text stack -> usable stack = false.
Proof.
  destruct stack as [s|]; [|reflexivity].
  intros H. rewrite usable_Some, (blank_no_text _ H). apply andb_false_r.
Qed.

(* ================================================================= *)
(** ** The trace-line formatter *)

(** C8. For a frame without a function name ([func] undefined or empty) the
    trace-line formatter returns ["  at <" + getSource(source) + ">"];
    for a frame with one it returns
    ["  at " + func + "  <" + getSource(source) + ">"].  The source is
    always passed through the injected [getSource]. *)
Theorem formatLine_shape :
  forall (getSource : str -> str) (src : str),
    formatLine {| func := None; source := src |} getSource
    = lit "  at <" ++ getSource src ++ lit ">"
    /\ formatLine {| func := Some []; source := src |} getSource
       = lit "  at <" ++ getSource src ++ lit ">"
    /\ forall (c : ascii) (f : str),
        formatLine {| func := Some (c :: f); source := src |} getSource
        = lit "  at " ++ (c :: f) ++ lit "  <" ++ getSource src ++ lit ">".
Proof.
  intros getSource src. repeat split.
Qed.

(* ================================================================= *)
(** ** The header of the message *)

(** [o ?? d]: the default stands in for an absent property only. *)
Definition nullish_default (o : option str) (d : str) : str :=
  match o with Some s => s | None => d end.

(** The header as the specification words it, with [??]. *)
Definition spec_header (error : InternError) : str :=
  nullish_default (name error) (lit "Error") ++ lit ": " ++
  nullish_default (message error) (lit "Unknown error").

(** An error is treated as structured when it has a message or a stack. *)
Definition structured (error : InternError) : bool :=
  truthy (message error) || truthy (stack error).

(** The error of [new Error()]: the message is the empty string, not absent,
    and the header gets the default all the same. *)
Lemma header_default_on_empty_message :
  let e := Sample.withStack "Error" "" "Error
    at foo (a.js:1:1)" in
  structured e = true
  /\ header e = lit "Error: Unknown error"
  /\ spec_header e = lit "Error: "
  /\ header e <> spec_header e.
Proof.
  cbv zeta. repeat split. discriminate.
Qed.

(** C9, as the code has it. The header of a structured error is
    [(name || 'Error') + ': ' + (message || 'Unknown error')]: each default
    stands in exactly when the property is absent or the empty string, and
    the composed message begins with this header. *)
Theorem header_defaults :
  forall toJSON createPatch String_of_error self (e : InternError),
    structured e = true ->
    let n := match name e with Some (c :: s) => c :: s | _ => lit "Error" end in
    let m := match message e with Some (c :: s) => c :: s | _ => lit "Unknown error" end in
    header e = n ++ lit ": " ++ m
    /\ exists tail,
        format toJSON createPatch String_of_error self (ErrObject e) None
        = n ++ lit ": " ++ m ++ tail.
Proof.
  intros toJSON createPatch Soe self e He n m.
  assert (H : header e = n ++ lit ": " ++ m).
  { unfold header, n, m, or_default.
    destruct (name e) as [[|c s]|]; destruct (message e) as [[|d t]|]; reflexivity. }
  split; [exact H|].
  unfold format, compose, structured in *. simpl. rewrite He, H.
  eexists. rewrite <- !app_assoc. reflexivity.
Qed.

Lemma header_defaults_witness :
  exists tail,
    Sample.format (new_Formatter None)
                  (ErrObject (Sample.withStack "" "" "Error
    at foo (a.js:1:1)")) None
    = lit "Error" ++ lit ": " ++ lit "Unknown error" ++ tail.
Proof.
  exact (proj2 (header_defaults Sample.toJSON Sample.createPatch
                  Sample.String_of_error (new_Formatter None)
                  (Sample.withStack "" "" "Error
    at foo (a.js:1:1)") eq_refl)).
Defined.

(* ================================================================= *)
(** ** The copy of the message at the top of the stack *)

Lemma dedupe_header (e : InternError) (rest_ : str) :
  dedupe e (header e ++ rest_) = rest_.
Proof.
  unfold dedupe. rewrite indexOf_zero, prefixb_app.
  apply skipn_app_exact.
Qed.

Lemma dedupe_message (e : InternError) (m rest_ : str) :
  message e = Some m ->
  prefixb (header e) (m ++ rest_) = false ->
  dedupe e (m ++ rest_) = rest_.
Proof.
  intros Hm Hh. unfold dedupe. rewrite !indexOf_zero, Hh, Hm. simpl.
  rewrite prefixb_app. apply skipn_app_exact.
Qed.

(** A stack that begins with the header and repeats it on its second line:
    the leading copy is stripped, the second one stays, and the message
    shows the header twice. *)
Lemma header_twice_in_output :
  let e := Sample.withStack "Error" "boom" "Error: boom
Error: boom
    at foo (a.js:1:1)" in
  prefixb (header e) (String_ (stack e)) = true
  /\ Sample.format (new_Formatter None) (ErrObject e) None
     = lit "Error: boom
Error: boom
    at foo (a.js:1:1)"
  /\ occurrences (header e)
                 (Sample.format (new_Formatter None) (ErrObject e) None) = 2.
Proof.
  cbv zeta. repeat split; vm_compute; reflexivity.
Qed.

(** C1, as the code has it. When the stack begins with the header, exactly
    the header is cut off its front before it is normalized, and the message
    is the header, the diff section and the trailer of what is left; when it
    begins with the message instead, exactly the message is cut off.  What
    is left of the stack may show the header text again. *)
Theorem dedupe_strips_prefix :
  forall toJSON createPatch String_of_error self (e : InternError)
         (options : option FormatOptions) (s rest_ : str),
    stack e = Some s ->
    s <> [] ->
    let normalized :=
      normalizeStackTrace rest_ (filterErrorStack self) (_getSource self) in
    let out :=
      indent (spaceOf options)
             (header e ++ diffSection toJSON createPatch e ++
              trailer e (Some normalized)) in
    (s = header e ++ rest_ ->
     dedupe e s = rest_ /\
     format toJSON createPatch String_of_error self (ErrObject e) options = out)
    /\ (forall m, message e = Some m ->
                  prefixb (header e) s = false ->
                  s = m ++ rest_ ->
                  dedupe e s = rest_ /\
                  format toJSON createPatch String_of_error self (ErrObject e) options
                  = out).
Proof.
  intros toJSON createPatch Soe self e options s rest_ Hs Hne normalized out.
  assert (Ht : truthy (stack e) = true).
  { rewrite Hs. destruct s; [congruence | reflexivity]. }
  assert (Hf : forall r, dedupe e s = r ->
             format toJSON createPatch Soe self (ErrObject e) options
             = indent (spaceOf options)
                 (header e ++ diffSection toJSON createPatch e ++
                  trailer e (Some (normalizeStackTrace r (filterErrorStack self)
                                                        (_getSource self))))).
  { intros r Hr. unfold format, compose, stackOf.
    rewrite Ht, orb_true_r, Hs. simpl. now rewrite Hr. }
  split.
  - intros ->. pose proof (dedupe_header e rest_) as Hd. split; [exact Hd|].
    now apply Hf.
  - intros m Hm Hp ->. pose proof (dedupe_message e m rest_ Hm Hp) as Hd.
    split; [exact Hd|]. now apply Hf.
Qed.

Lemma dedupe_strips_prefix_witness :
  let e := Sample.withStack "Error" "boom" "Error: boom
    at foo (a.js:1:1)" in
  dedupe e (String_ (stack e)) = lit "
    at foo (a.js:1:1)"
  /\ Sample.format (new_Formatter None) (ErrObject e) None
     = header e ++ diffSection Sample.toJSON Sample.createPatch e ++
       trailer e (Some (normalizeStackTrace (lit "
    at foo (a.js:1:1)") false (fun x => x))).
Proof.
  exact (proj1 (dedupe_strips_prefix Sample.toJSON Sample.createPatch
                  Sample.String_of_error (new_Formatter None)
                  (Sample.withStack "Error" "boom" "Error: boom
    at foo (a.js:1:1)") None (lit "Error: boom
    at foo (a.js:1:1)") (lit "
    at foo (a.js:1:1)") eq_refl ltac:(discriminate)) eq_refl).
Defined.

(* ================================================================= *)
(** ** The guard of the diff *)

(** The guard as the specification words it: [showDiff] is truthy and
    neither value is a primitive. *)
Definition spec_wantsDiff (error : InternError) : bool :=
  js_truthy (showDiff error) &&
  negb (is_primitive (actual error)) &&
  negb (is_primitive (expected error)).

Lemma typeof_object (v : value) :
  str_eqb (typeof v) (lit "object") = true <-> v = VNull \/ is_primitive v = false.
Proof.
  destruct v; simpl; split; intros H; try discriminate; auto;
    destruct H as [H|H]; discriminate.
Qed.

Lemma format_structured toJSON createPatch String_of_error self e options :
  structured e = true ->
  format toJSON createPatch String_of_error self (ErrObject e) options
  = indent (spaceOf options)
           (header e ++ diffSection toJSON createPatch e ++ trailer e (stackOf self e)).
Proof.
  intros H. unfold format, compose. unfold structured in H. now rewrite H.
Qed.

(** [null] is a primitive, yet [typeof null] is ['object']: an error that
    expects an object and got [null] is given a diff.  And an error object
    with neither a message nor a stack is given none, whatever it asks for:
    [format] returns its string conversion. *)
Lemma diff_of_null :
  let e := Sample.withDiff VNull (VObject []) in
  let bare :=
    {| name := None; message := None; stack := None; showDiff := VBool true;
       actual := VArray []; expected := VObject []; fileName := None;
       lineNumber := None; columnNumber := None |} in
  is_primitive (actual e) = true
  /\ spec_wantsDiff e = false
  /\ wantsDiff e = true
  /\ Sample.format (new_Formatter None) (ErrObject e) None
     = header e ++ lit "

A null
E {}
" ++ trailer e None
  /\ spec_wantsDiff bare = true
  /\ Sample.format (new_Formatter None) (ErrObject bare) None
     = Sample.String_of_error bare.
Proof.
  cbv zeta. repeat split.
Qed.

(** C2, as the code has it. Only a structured error, one with a non-empty
    message or a non-empty stack, can get a diff: for a plain string and
    for any other error object [format] returns the string conversion,
    whatever [showDiff], [actual] and [expected] are.  For a structured
    error the diff is made exactly when [showDiff] is truthy and [typeof]
    gives ['object'] for both [actual] and [expected], that is, when each
    of them is an object, an array or [null].  When this guard fails the
    message has no diff section, whatever the serializer and the patch
    function are; when it holds the message has the section made from the
    text of [createDiff], if that text is not empty. *)
Theorem diff_guard :
  forall toJSON createPatch String_of_error self (error : ErrorLike)
         (options : option FormatOptions),
    let out := format toJSON createPatch String_of_error self error options in
    match error with
    | ErrString s => out = indent (spaceOf options) s
    | ErrObject e =>
        (wantsDiff e = true <->
         js_truthy (showDiff e) = true
         /\ (actual e = VNull \/ is_primitive (actual e) = false)
         /\ (expected e = VNull \/ is_primitive (expected e) = false))
        /\ (structured e = false ->
            out = indent (spaceOf options) (String_of_error e))
        /\ (structured e = true -> wantsDiff e = false ->
            out = indent (spaceOf options) (header e ++ trailer e (stackOf self e)))
        /\ (structured e = true -> wantsDiff e = true ->
            let diff := createDiff toJSON createPatch (actual e) (expected e) in
            out = indent (spaceOf options)
                    (header e ++
                     (if nonempty diff then newline ++ newline ++ diff ++ newline
                      else []) ++
                     trailer e (stackOf self e)))
    end.
Proof.
  intros toJSON createPatch Soe self error options out. unfold out.
  destruct error as [s|e]; [reflexivity|]. split; [|split; [|split]].
  - split.
    + intros H. unfold wantsDiff in H. apply andb_true_iff in H as [H H3].
      apply andb_true_iff in H as [H1 H2]. apply typeof_object in H2, H3. auto.
    + intros [H1 [H2 H3]]. unfold wantsDiff.
      apply typeof_object in H2, H3. now rewrite H1, H2, H3.
  - intros He. unfold format, compose. unfold structured in He. now rewrite He.
  - intros He Hw.
    rewrite (format_structured toJSON createPatch Soe self e options He).
    unfold diffSection. now rewrite Hw.
  - intros He Hw.
    rewrite (format_structured toJSON createPatch Soe self e options He).
    unfold diffSection. now rewrite Hw.
Qed.

Lemma diff_guard_witness :
  let e := Sample.withDiff (VArray []) (VObject []) in
  wantsDiff e = true
  /\ Sample.format (new_Formatter None) (ErrObject e) None
     = header e ++
       (if nonempty (createDiff Sample.toJSON Sample.createPatch (actual e) (expected e))
        then newline ++ newline ++
             createDiff Sample.toJSON Sample.createPatch (actual e) (expected e) ++
             newline
        else []) ++
       trailer e (stackOf (new_Formatter None) e).
Proof.
  split; [reflexivity|].
  exact (proj2 (proj2 (proj2 (diff_guard Sample.toJSON Sample.createPatch
                         Sample.String_of_error (new_Formatter None)
                         (ErrObject (Sample.withDiff (VArray []) (VObject []))) None)))
               eq_refl eq_refl).
Defined.

(* ================================================================= *)
(** ** The trailer when there is no stack to show *)

(** An error whose [fileName] is set to the empty string has no usable
    location: its message ends with [No stack or location] and holds no
    [  at ] line.  And with [space] set the lines of the trailer are
    indented with the rest, so the text [  at a.js] no longer follows a
    line break directly. *)
Lemma trailer_of_empty_fileName :
  let e := Sample.withLocation "" (Some 3%Z) None in
  let message := Sample.format (new_Formatter None) (ErrObject e) None in
  let indented :=
    Sample.format (new_Formatter None)
                  (ErrObject (Sample.withLocation "a.js" (Some 3%Z) None))
                  (Some {| space := Some (lit "> ") |}) in
  fileName e = Some []
  /\ message = lit "Error: boom
No stack or location"
  /\ occurrences (newline ++ lit "  at ") message = 0
  /\ indented = lit "> Error: boom
>   at a.js:3
> No stack"
  /\ occurrences (newline ++ lit "  at a.js") indented = 0.
Proof.
  cbv zeta. repeat split.
Qed.

(** C3, as the code has it. For a structured error whose stack, after the
    normalization, is absent, empty or white space only, the message ends
    in one of two trailers, chosen by the truthiness of [fileName].  With a
    non-empty [fileName] it is the line ["  at " + fileName], followed by
    [":" + lineNumber] when the line number is set and then by
    [":" + columnNumber] when the column number is set too, and the line
    [No stack]; with [fileName] absent or empty it is the line
    [No stack or location].  The indentation asked for by [space] is then
    applied to every line of the message, those of the trailer included;
    without [space] the message is returned as it is. *)
Theorem trailer_without_stack :
  forall toJSON createPatch String_of_error self (e : InternError)
         (options : option FormatOptions),
    structured e = true ->
    no_text (stackOf self e) ->
    let body := header e ++ diffSection toJSON createPatch e in
    let out := format toJSON createPatch String_of_error self (ErrObject e) options in
    let location :=
      match lineNumber e, columnNumber e with
      | Some l, Some c => lit ":" ++ String_of_number l ++ lit ":" ++ String_of_number c
      | Some l, None => lit ":" ++ String_of_number l
      | None, _ => []
      end in
    (forall f, fileName e = Some f -> f <> [] ->
       let message := body ++ newline ++ lit "  at " ++ f ++ location ++
                      newline ++ lit "No stack" in
       out = indent (spaceOf options) message
       /\ (spaceOf options = None -> out = message))
    /\ (truthy (fileName e) = false ->
        let message := body ++ newline ++ lit "No stack or location" in
        out = indent (spaceOf options) message
        /\ (spaceOf options = None -> out = message)).
Proof.
  intros toJSON createPatch Soe self e options He Hs body out location.
  unfold out, body, location.
  rewrite (format_structured toJSON createPatch Soe self e options He).
  unfold trailer. rewrite (usable_no_text _ Hs). split.
  - intros f Hf Hne. rewrite Hf. destruct f as [|c f]; [congruence|].
    cbn [truthy nonempty String_]. rewrite <- !app_assoc.
    destruct (lineNumber e) as [l|]; [destruct (columnNumber e) as [k|]|];
      cbn [app]; rewrite <- ?app_assoc; cbn [app]; rewrite <- ?app_assoc;
      (split; [reflexivity | now intros ->]).
  - intros Hf. rewrite Hf. rewrite <- !app_assoc.
    split; [reflexivity | now intros ->].
Qed.

Lemma trailer_without_stack_witness :
  Sample.format (new_Formatter None)
                (ErrObject (Sample.withLocation "a.js" (Some 3%Z) (Some (-14)%Z))) None
  = lit "Error: boom
  at a.js:3:-14
No stack".
Proof.
  exact (proj2 (proj1 (trailer_without_stack Sample.toJSON Sample.createPatch
                  Sample.String_of_error (new_Formatter None)
                  (Sample.withLocation "a.js" (Some 3%Z) (Some (-14)%Z)) None
                  eq_refl I)
               (lit "a.js") eq_refl ltac:(discriminate)) eq_refl).
Defined.

(* ================================================================= *)
(** ** The default formatter *)

(** C10. A formatter made with no options, or with options that leave
    [filterErrorStack] out, has [filterErrorStack = false].  For an error
    with a stack its [format] then hands every parsed line to the output:
    none is filtered, and when there is any parsed line the message is the
    header, the diff section, a line break, the preserved first line and all
    parsed lines joined by line breaks (indented when [space] is set). *)
Theorem default_formatter_keeps_lines :
  forall toJSON createPatch String_of_error
         (options : option FormatterOptions) (e : InternError) (s : str)
         (formatOptions : option FormatOptions),
    (options = None \/ options = Some {| opt_filterErrorStack := None |}) ->
    stack e = Some s ->
    s <> [] ->
    let self := new_Formatter options in
    let parsed := parseLines (contentLines (dedupe e s)) (fun tracepath => tracepath) in
    filterErrorStack self = false
    /\ normalizedLines (dedupe e s) (filterErrorStack self) (_getSource self) = parsed
    /\ (parsed <> [] ->
        format toJSON createPatch String_of_error self (ErrObject e) formatOptions
        = indent (spaceOf formatOptions)
                 (header e ++ diffSection toJSON createPatch e ++
                  newline ++ firstLineOf (dedupe e s) ++ join newline parsed)).
Proof.
  intros toJSON createPatch Soe options e s fo Hopt Hs Hne self parsed.
  assert (Hself : self = new_Formatter None).
  { unfold self. destruct Hopt as [->| ->]; reflexivity. }
  rewrite Hself. unfold parsed. split; [reflexivity|]. split; [reflexivity|].
  intros Hp.
  assert (Hst : structured e = true).
  { unfold structured. rewrite Hs. destruct s; [congruence|]. apply orb_true_r. }
  rewrite (format_structured toJSON createPatch Soe _ e fo Hst).
  unfold stackOf. rewrite Hs.
  destruct s as [|c s]; [congruence|]. simpl truthy. cbv iota. simpl String_.
  unfold trailer. simpl filterErrorStack. simpl _getSource.
  rewrite (usable_normalized _ _ Hp). reflexivity.
Qed.

Lemma default_formatter_keeps_lines_witness :
  Sample.format (new_Formatter None)
                (ErrObject (Sample.withStack "Error" "boom" "Error: boom
    at foo (node_modules/a.js:1:1)
    at Module.runMain (module.js:2:2)")) None
  = lit "Error: boom
  at foo  <node_modules/a.js:1:1>
  at Module.runMain  <module.js:2:2>".
Proof.
  exact (proj2 (proj2 (default_formatter_keeps_lines
                  Sample.toJSON Sample.createPatch Sample.String_of_error None
                  (Sample.withStack "Error" "boom" "Error: boom
    at foo (node_modules/a.js:1:1)
    at Module.runMain (module.js:2:2)")
                  (lit "Error: boom
    at foo (node_modules/a.js:1:1)
    at Module.runMain (module.js:2:2)") None
                  (or_introl eq_refl) eq_refl ltac:(discriminate)))
               ltac:(vm_compute; discriminate)).
Defined.

(* ================================================================= *)
(** ** The noise patterns *)

(** Some position of the input, from the current one on, satisfies [f]. *)
Fixpoint any_suffix (f : list ascii -> str -> bool) (pre : list ascii) (s : str) : bool :=
  f pre s ||
  match s with
  | [] => false
  | c :: s' => any_suffix f (c :: pre) s'
  end.

Lemma search_any_suffix (m : bool) (r : regex) : forall s pre,
  (match search m r pre s with Some _ => true | None => false end)
  = any_suffix (fun pre s => nonempty_list (rmatch m r (MState pre s []))) pre s.
Proof.
  induction s as [|c s IH]; intros pre; simpl.
  - now destruct (rmatch m r _).
  - destruct (rmatch m r (MState pre (c :: s) [])); simpl; [apply IH | reflexivity].
Qed.

Lemma any_suffix_ext (f g : list ascii -> str -> bool) :
  (forall pre s, f pre s = g pre s) ->
  forall s pre, any_suffix f pre s = any_suffix g pre s.
Proof.
  intros H. induction s as [|c s IH]; intros pre; simpl; rewrite H; [reflexivity|].
  now rewrite IH.
Qed.

Lemma any_suffix_split (g : str -> bool) : forall s pre,
  any_suffix (fun _ s => g s) pre s = true <-> exists a b, s = a ++ b /\ g b = true.
Proof.
  induction s as [|c s IH]; intros pre; simpl.
  - rewrite orb_false_r. split.
    + intros H. now exists [], [].
    + intros [a [b [E H]]]. symmetry in E. apply app_eq_nil in E as [_ ->]. exact H.
  - rewrite orb_true_iff, IH. split.
    + intros [H|[a [b [-> H]]]].
      * now exists [], (c :: s).
      * now exists (c :: a), b.
    + intros [[|d a] [b [E H]]]; simpl in E.
      * left. now rewrite E.
      * right. injection E as -> ->. now exists a, b.
Qed.

(** A literal pattern finds the places where the literal stands. *)
Lemma test_Lit (m : bool) (p s : str) :
  test m (Lit p) s = true <-> infix p s.
Proof.
  unfold test, exec. rewrite search_any_suffix.
  rewrite (any_suffix_ext
             (fun pre s => nonempty_list (rmatch m (Lit p) (MState pre s [])))
             (fun _ s => prefixb p s)).
  - rewrite any_suffix_split. split.
    + intros [a [b [-> H]]]. apply prefixb_true in H as [r ->]. now exists a, r.
    + intros [a [b ->]]. exists a, (p ++ b). split; [reflexivity | apply prefixb_app].
  - intros pre' s'. rewrite rmatch_Lit. now destruct (prefixb p s').
Qed.

(** [node_modules/] counts unless [digdug] or [leadfoot] comes right after. *)
Lemma test_node_modules (s : str) :
  test false re_node_modules s = true <->
  exists a b, s = a ++ lit "node_modules/" ++ b
              /\ prefixb (lit "digdug") b = false
              /\ prefixb (lit "leadfoot") b = false.
Proof.
  unfold test, exec. rewrite search_any_suffix.
  rewrite (any_suffix_ext
             (fun pre s => nonempty_list (rmatch false re_node_modules (MState pre s [])))
             (fun _ s => prefixb (lit "node_modules/") s
                         && negb (prefixb (lit "digdug") (skipn 13 s))
                         && negb (prefixb (lit "leadfoot") (skipn 13 s)))).
  - rewrite any_suffix_split. split.
    + intros [a [b [-> H]]].
      apply andb_true_iff in H as [H H3]. apply andb_true_iff in H as [H1 H2].
      apply prefixb_true in H1 as [r ->].
      change 13 with (length (lit "node_modules/")) in H2, H3.
      rewrite skipn_app_exact in H2, H3.
      exists a, r. repeat split; now apply negb_true_iff.
    + intros [a [b [-> [H1 H2]]]]. exists a, (lit "node_modules/" ++ b).
      split; [reflexivity|].
      change 13 with (length (lit "node_modules/")).
      rewrite skipn_app_exact, prefixb_app, H1, H2. reflexivity.
  - intros pre' s'. unfold re_node_modules. rewrite rmatch_Seq_Lit.
    destruct (prefixb (lit "node_modules/") s'); [|reflexivity].
    change (length (lit "node_modules/")) with 13.
    change (rmatch false (NegLookahead (Alt (Lit (lit "digdug")) (Lit (lit "leadfoot"))))
                   (MState (rev (lit "node_modules/") ++ pre') (skipn 13 s') []))
      with (match rmatch false (Lit (lit "digdug"))
                         (MState (rev (lit "node_modules/") ++ pre') (skipn 13 s') [])
                  ++ rmatch false (Lit (lit "leadfoot"))
                         (MState (rev (lit "node_modules/") ++ pre') (skipn 13 s') [])
            with
            | [] => [MState (rev (lit "node_modules/") ++ pre') (skipn 13 s') []]
            | _ :: _ => []
            end).
    rewrite !rmatch_Lit.
    destruct (prefixb (lit "digdug") (skipn 13 s'));
      destruct (prefixb (lit "leadfoot") (skipn 13 s')); reflexivity.
Qed.

(** The lines the filter drops, in words: a line that mentions
    [internal/process/], [node_modules/] not followed by [digdug] or
    [leadfoot], [Module.runMain] or [bootstrap_node.js]. *)
Definition noisy (line : str) : Prop :=
  infix (lit "internal/process/") line
  \/ (exists a b, line = a ++ lit "node_modules/" ++ b
                  /\ prefixb (lit "digdug") b = false
                  /\ prefixb (lit "leadfoot") b = false)
  \/ infix (lit "Module.runMain") line
  \/ infix (lit "bootstrap_node.js") line.

Lemma isNoise_noisy (line : str) : isNoise line = true <-> noisy line.
Proof.
  unfold isNoise, noisy, re_internal_process, re_run_main, re_bootstrap_node.
  rewrite !orb_true_iff, !test_Lit, test_node_modules. tauto.
Qed.

(* ================================================================= *)
(** ** Lines that begin with [at ] *)

Fixpoint drop_while (p : ascii -> bool) (s : str) : str :=
  match s with
  | [] => []
  | c :: s' => if p c then drop_while p s' else s
  end.

Lemma nonempty_list_app {A} (a b : list A) :
  nonempty_list (a ++ b) = nonempty_list a || nonempty_list b.
Proof. now destruct a. Qed.

Lemma star_then_Lit (p : ascii -> bool) (c : ascii) (w : str) :
  p c = false ->
  forall s pre cs,
    nonempty_list (flat_map (rmatch false (Lit (c :: w))) (star_class true p pre s cs))
    = prefixb (c :: w) (drop_while p s).
Proof.
  intros Hc. induction s as [|d s IH]; intros pre cs.
  - reflexivity.
  - cbn [star_class drop_while]. destruct (p d) eqn:Hd.
    + rewrite flat_map_app, nonempty_list_app, IH.
      cbn [flat_map]. rewrite rmatch_Lit. cbn [prefixb].
      destruct (Ascii.eqb c d) eqn:E.
      * apply Ascii.eqb_eq in E. congruence.
      * apply orb_false_r.
    + cbn [flat_map]. rewrite rmatch_Lit, app_nil_r.
      now destruct (prefixb (c :: w) (d :: s)).
Qed.

(** [/^\s*at /] holds of the lines that begin, after white space, with [at ]. *)
Lemma test_at (s : str) :
  test false re_at s = prefixb (lit "at ") (drop_while is_space s).
Proof.
  unfold re_at. rewrite test_Bol.
  change (rmatch false (Seq (Star true (Class is_space)) (Lit (lit "at "))) (MState [] s []))
    with (flat_map (rmatch false (Lit (lit "at ")))
                   (rmatch false (Star true (Class is_space)) (MState [] s []))).
  rewrite rmatch_star_class. now apply star_then_Lit.
Qed.

(* ================================================================= *)
(** ** Replacing line by line

    With the [g] and [m] flags a pattern that begins with [^] and never
    looks past the end of its line is applied to the lines of the text one
    after the other. *)

(** The position after [pre] is the start of a line. *)
Definition line_start (pre : list ascii) : Prop :=
  match pre with
  | [] => True
  | c :: _ => is_line_terminator c = true
  end.

(** A line: no line break and no carriage return in it. *)
Definition one_line (l : str) : Prop := forallb is_dot l = true.

Lemma at_bol_line_start (pre : list ascii) (s : str) cs :
  line_start pre -> at_bol true (MState pre s cs) = true.
Proof.
  destruct pre as [|c pre]; unfold at_bol, line_start; cbn [consumed andb]; auto.
Qed.

Lemma rmatch_Bol_inside (r : regex) (d : ascii) (q : list ascii) (s : str) cs :
  is_line_terminator d = false ->
  rmatch true (Seq Bol r) (MState (d :: q) s cs) = [].
Proof.
  intros H. rewrite rmatch_Seq_Bol. unfold at_bol. cbn [consumed andb].
  now rewrite H.
Qed.

Lemma is_dot_not_terminator (c : ascii) : is_dot c = true -> is_line_terminator c = false.
Proof. unfold is_dot. now destruct (is_line_terminator c). Qed.

Lemma one_line_cons (c : ascii) (l : str) :
  one_line (c :: l) -> is_line_terminator c = false /\ one_line l.
Proof.
  unfold one_line. simpl. intros H. apply andb_true_iff in H as [H1 H2].
  split; [now apply is_dot_not_terminator | exact H2].
Qed.

Lemma one_line_last (l : str) (pre : list ascii) :
  l <> [] -> one_line l ->
  exists d q, rev l ++ pre = d :: q /\ is_line_terminator d = false.
Proof.
  intros Hne Hl. destruct (exists_last Hne) as [l0 [d ->]].
  exists d, (rev l0 ++ pre). split.
  - rewrite rev_app_distr. reflexivity.
  - unfold one_line in Hl. rewrite forallb_app in Hl.
    apply andb_true_iff in Hl as [_ Hl]. simpl in Hl.
    apply is_dot_not_terminator. now destruct (is_dot d).
Qed.

Section LineByLine.

Variable r : regex.
Variable f : match_result -> str.

(** The lines in the domain, and what becomes of each. *)
Variable ok : str -> Prop.
Variable out : str -> str.

Hypothesis ok_one_line : forall l, ok l -> one_line l.

(** At the start of a line either nothing matches and the line stays, or
    the first match is the whole line and is replaced by [out]. *)
Hypothesis at_start : forall l pre tail,
  ok l -> line_start pre ->
  (tail = [] \/ exists next, tail = LF :: next) ->
  (rmatch true (Seq Bol r) (MState pre (l ++ tail) []) = [] /\ out l = l)
  \/ (exists st' t,
        rmatch true (Seq Bol r) (MState pre (l ++ tail) []) = st' :: t
        /\ rest st' = tail
        /\ consumed st' = rev l ++ pre
        /\ f (result_of pre (l ++ tail) st') = out l).

Lemma replace_inside_line : forall l fuel d q tail,
  is_line_terminator d = false ->
  one_line l ->
  length (l ++ tail) < fuel ->
  replace_from true fuel (Seq Bol r) f (d :: q) (l ++ tail)
  = l ++ replace_from true (fuel - length l) (Seq Bol r) f (rev l ++ d :: q) tail.
Proof.
  induction l as [|c l IH]; intros fuel d q tail Hd Hl Hf.
  - simpl. now rewrite Nat.sub_0_r.
  - destruct fuel as [|fuel]; [simpl in Hf; lia|].
    apply one_line_cons in Hl as [Hc Hl].
    cbn [replace_from]. rewrite rmatch_Bol_inside by exact Hd.
    cbn [app]. rewrite IH by (auto; simpl in Hf; lia).
    cbn [length rev Nat.sub]. now rewrite <- app_assoc.
Qed.

Lemma replace_after_line : forall fuel d q tail,
  is_line_terminator d = false ->
  length tail < fuel ->
  replace_from true fuel (Seq Bol r) f (d :: q) tail
  = match tail with
    | [] => []
    | c :: next => c :: replace_from true (fuel - 1) (Seq Bol r) f (c :: d :: q) next
    end.
Proof.
  intros fuel d q tail Hd Hf. destruct fuel as [|fuel]; [lia|].
  cbn [replace_from]. rewrite rmatch_Bol_inside by exact Hd.
  cbn [Nat.sub]. now rewrite Nat.sub_0_r.
Qed.

(** One line and the line break after it. *)
Lemma replace_line : forall l pre fuel,
  ok l -> line_start pre ->
  (length l < fuel ->
   replace_from true fuel (Seq Bol r) f pre l = out l)
  /\ (forall next,
        length (l ++ LF :: next) < fuel ->
        exists fuel2,
          length next < fuel2 /\
          replace_from true fuel (Seq Bol r) f pre (l ++ LF :: next)
          = out l ++ LF :: replace_from true fuel2 (Seq Bol r) f
                                        (LF :: rev l ++ pre) next).
Proof.
  intros l pre fuel Hok Hpre.
  pose proof (ok_one_line l Hok) as Hl.
  split.
  - intros Hf. destruct fuel as [|fuel]; [lia|].
    destruct (at_start l pre [] Hok Hpre (or_introl eq_refl))
      as [[Hno Hout]|[st' [t [Hm [Hrest [Hcons Hrepl]]]]]];
      rewrite app_nil_r in *.
    + cbn [replace_from]. rewrite Hno, Hout.
      destruct l as [|c l]; [reflexivity|].
      apply one_line_cons in Hl as [Hc Hl].
      pose proof (replace_inside_line l fuel c pre [] Hc Hl) as E.
      rewrite app_nil_r in E. rewrite E by (simpl in *; lia).
      destruct (one_line_last (c :: l) pre ltac:(discriminate)
                              ltac:(unfold one_line in *; simpl;
                                    rewrite Hl;
                                    unfold is_dot; now rewrite Hc))
        as [d [q [Eq Hd]]].
      cbn [rev] in Eq. rewrite <- app_assoc in Eq. cbn [app] in Eq.
      rewrite Eq, replace_after_line by (auto; simpl in *; lia).
      now rewrite app_nil_r.
    + cbn [replace_from]. rewrite Hm. cbv zeta. rewrite Hrepl.
      unfold result_of. cbn [matched]. rewrite Hrest.
      cbn [length]. rewrite Nat.sub_0_r, firstn_all.
      destruct l as [|c l]; [now rewrite app_nil_r|].
      rewrite Hcons.
      destruct (one_line_last (c :: l) pre ltac:(discriminate) Hl)
        as [d [q [Eq Hd]]].
      rewrite Eq, replace_after_line by (auto; simpl in *; lia).
      now rewrite app_nil_r.
  - intros next Hf. destruct fuel as [|fuel]; [lia|].
    rewrite length_app in Hf. cbn [length] in Hf.
    destruct (at_start l pre (LF :: next) Hok Hpre
                       (or_intror (ex_intro _ next eq_refl)))
      as [[Hno Hout]|[st' [t [Hm [Hrest [Hcons Hrepl]]]]]].
    + cbn [replace_from]. rewrite Hno, Hout.
      destruct l as [|c l].
      * exists fuel. split; [lia | reflexivity].
      * apply one_line_cons in Hl as [Hc Hl'].
        cbn [app]. rewrite replace_inside_line
          by (auto; rewrite length_app; simpl in *; lia).
        destruct (one_line_last (c :: l) pre ltac:(discriminate)
                                ltac:(unfold one_line in *; simpl;
                                      rewrite Hl';
                                      unfold is_dot; now rewrite Hc))
          as [d [q [Eq Hd]]].
        cbn [rev] in Eq. rewrite <- app_assoc in Eq. cbn [app] in Eq.
        rewrite Eq, replace_after_line by (auto; simpl in *; lia).
        exists (fuel - length l - 1). split; [simpl in *; lia|].
        rewrite <- Eq. cbn [rev]. rewrite <- !app_assoc. reflexivity.
    + cbn [replace_from]. rewrite Hm. cbv zeta. rewrite Hrepl.
      unfold result_of. cbn [matched]. rewrite Hrest.
      rewrite (firstn_app_exact l (LF :: next)).
      destruct l as [|c l].
      * exists fuel. split; [lia|]. rewrite Hcons. reflexivity.
      * rewrite Hcons.
        destruct (one_line_last (c :: l) pre ltac:(discriminate) Hl)
          as [d [q [Eq Hd]]].
        rewrite Eq, replace_after_line by (auto; simpl in *; lia).
        exists (fuel - 1). split; [simpl in *; lia | reflexivity].
Qed.

(** The text made of the lines [ls] becomes the text made of their images. *)
Lemma replace_lines : forall ls pre fuel,
  ls <> [] -> Forall ok ls -> line_start pre ->
  length (join newline ls) < fuel ->
  replace_from true fuel (Seq Bol r) f pre (join newline ls)
  = join newline (map out ls).
Proof.
  induction ls as [|l ls IH]; intros pre fuel Hne Hok Hpre Hf; [congruence|].
  inversion Hok as [|? ? Hl Hls]; subst.
  destruct ls as [|l2 ls].
  - simpl in *. now apply (replace_line l pre fuel Hl Hpre).
  - change (join newline (l :: l2 :: ls))
      with (l ++ LF :: join newline (l2 :: ls)) in *.
    destruct (proj2 (replace_line l pre fuel Hl Hpre) _ Hf) as [fuel2 [H2 E]].
    rewrite E.
    rewrite (IH (LF :: rev l ++ pre) fuel2);
      [reflexivity | discriminate | assumption | reflexivity | assumption].
Qed.

Lemma replace_all_lines (ls : list str) :
  ls <> [] -> Forall ok ls ->
  replace_all true (Seq Bol r) f (join newline ls) = join newline (map out ls).
Proof.
  intros Hne Hok. unfold replace_all. apply replace_lines; simpl; auto.
Qed.

End LineByLine.

(* ================================================================= *)
(** ** The two replacements of [createDiff] *)

(** After [@@]: characters other than [@], then [@@] and the end of the line. *)
Fixpoint hunk_tail (s : str) : bool :=
  match s with
  | [] => false
  | c :: s' => if is_char "@" c then str_eqb s (lit "@@") else hunk_tail s'
  end.

(** A line that is a range marker: [@@], text without [@], [@@]. *)
Definition is_hunk_range (l : str) : bool :=
  prefixb (lit "@@") l && hunk_tail (skipn 2 l).

(** What the first replacement makes of a line. *)
Definition mark (l : str) : str :=
  if is_hunk_range l then lit "[...]" else l.

(** What the second replacement makes of a line. *)
Definition recode_line (l : str) : str :=
  match l with
  | c :: content =>
      if Ascii.eqb c "+" then
        if str_eqb content (lit "[...]") then lit "[...]" else lit "E " ++ content
      else if Ascii.eqb c "-" then
        if str_eqb content (lit "[...]") then lit "[...]" else lit "A " ++ content
      else if str_eqb l (lit "[...]") then l else lit " " ++ l
  | [] => lit " "
  end.

Lemma star_class_head (p : ascii -> bool) : forall l pre tail cs,
  forallb p l = true ->
  match tail with [] => True | c :: _ => p c = false end ->
  exists t, star_class true p pre (l ++ tail) cs
            = MState (rev l ++ pre) tail cs :: t.
Proof.
  induction l as [|d l IH]; intros pre tail cs Hl Ht.
  - exists []. destruct tail as [|c tail]; simpl; [reflexivity | now rewrite Ht].
  - simpl in Hl. apply andb_true_iff in Hl as [Hd Hl].
    destruct (IH (d :: pre) tail cs Hl Ht) as [t E].
    exists (t ++ [MState pre ((d :: l) ++ tail) cs]).
    cbn [app star_class]. rewrite Hd, E. cbn [rev]. now rewrite <- app_assoc.
Qed.

Lemma at_eol_tail (pre : list ascii) (tail : str) cs :
  (tail = [] \/ exists next, tail = LF :: next) ->
  at_eol true (MState pre tail cs) = true.
Proof. intros [->|[next ->]]; reflexivity. Qed.

Lemma hunk_tail_split : forall s,
  hunk_tail s = true ->
  exists x, s = x ++ lit "@@" /\ forallb (fun c => negb (is_char "@" c)) x = true.
Proof.
  induction s as [|c s IH]; intros H; simpl in H; [discriminate|].
  destruct (is_char "@" c) eqn:Hc.
  - exists []. split; [|reflexivity].
    change (str_eqb (c :: s) (lit "@@") = true) in H.
    now apply str_eqb_eq in H.
  - destruct (IH H) as [x [-> Hx]]. exists (c :: x). split; [reflexivity|].
    simpl. now rewrite Hc.
Qed.

Lemma is_hunk_range_split (l : str) :
  is_hunk_range l = true ->
  exists x, l = lit "@@" ++ x ++ lit "@@"
            /\ forallb (fun c => negb (is_char "@" c)) x = true.
Proof.
  unfold is_hunk_range. intros H. apply andb_true_iff in H as [H1 H2].
  apply prefixb_true in H1 as [r ->].
  change 2 with (length (lit "@@")) in H2. rewrite skipn_app_exact in H2.
  destruct (hunk_tail_split _ H2) as [x [-> Hx]]. now exists x.
Qed.

Lemma prefixb_at_line (l tail : str) :
  (tail = [] \/ exists next, tail = LF :: next) ->
  prefixb (lit "@@") (l ++ tail) = prefixb (lit "@@") l.
Proof.
  intros Ht. destruct l as [|c [|d l]]; cbn [app].
  - destruct Ht as [->|[next ->]]; reflexivity.
  - destruct Ht as [->|[next ->]]; [reflexivity|].
    cbn [prefixb lit list_ascii_of_string].
    destruct (Ascii.eqb "@" c); reflexivity.
  - reflexivity.
Qed.

(** The lines the first replacement is stated for: one line each, and a
    line that begins with [@@] is a range marker. *)
Definition marker_ok (l : str) : Prop :=
  one_line l /\ (prefixb (lit "@@") l = true -> is_hunk_range l = true).

Definition hunk_body : regex :=
  Seq (Lit (lit "@@"))
      (Seq (Star true (NotChr "@")) (Seq (Lit (lit "@@")) Eol)).

Lemma hunk_at_start : forall l pre tail,
  marker_ok l -> line_start pre ->
  (tail = [] \/ exists next, tail = LF :: next) ->
  (rmatch true (Seq Bol hunk_body) (MState pre (l ++ tail) []) = [] /\ mark l = l)
  \/ (exists st' t,
        rmatch true (Seq Bol hunk_body) (MState pre (l ++ tail) []) = st' :: t
        /\ rest st' = tail
        /\ consumed st' = rev l ++ pre
        /\ (fun _ : match_result => lit "[...]") (result_of pre (l ++ tail) st') = mark l).
Proof.
  intros l pre tail [Hl Hm] Hpre Ht.
  rewrite rmatch_Seq_Bol, at_bol_line_start by exact Hpre.
  unfold hunk_body. rewrite rmatch_Seq_Lit, prefixb_at_line by exact Ht.
  unfold mark. destruct (is_hunk_range l) eqn:Hh.
  - right. destruct (is_hunk_range_split l Hh) as [x [-> Hx]].
    rewrite prefixb_app. rewrite <- !app_assoc, skipn_app_exact.
    change (rmatch true (Seq (Star true (NotChr "@")) (Seq (Lit (lit "@@")) Eol))
                   (MState (rev (lit "@@") ++ pre) (x ++ lit "@@" ++ tail) []))
      with (flat_map (rmatch true (Seq (Lit (lit "@@")) Eol))
                     (rmatch true (Star true (NotChr "@"))
                             (MState (rev (lit "@@") ++ pre) (x ++ lit "@@" ++ tail) []))).
    unfold NotChr. rewrite rmatch_star_class.
    destruct (star_class_head (fun c => negb (is_char "@" c)) x
                (rev (lit "@@") ++ pre) (lit "@@" ++ tail) [] Hx eq_refl) as [t E].
    rewrite E. cbn [flat_map]. rewrite rmatch_Seq_Lit, prefixb_app, skipn_app_exact.
    cbn [rmatch]. rewrite at_eol_tail by exact Ht.
    eexists. eexists. split; [reflexivity|]. cbn [rest consumed].
    split; [reflexivity|]. split; [|reflexivity].
    rewrite !rev_app_distr, <- !app_assoc. reflexivity.
  - left. destruct (prefixb (lit "@@") l); [|now split].
    specialize (Hm eq_refl). discriminate.
Qed.

Lemma replace_hunk_ranges (ls : list str) :
  ls <> [] -> Forall marker_ok ls ->
  replace_all true re_hunk_range (fun _ => lit "[...]") (join newline ls)
  = join newline (map mark ls).
Proof.
  intros Hne Hok.
  apply (replace_all_lines hunk_body (fun _ => lit "[...]") marker_ok mark);
    auto using hunk_at_start.
  intros l [H _]. exact H.
Qed.

Definition is_indicator (c : ascii) : bool := is_char "+" c || is_char "-" c.

Definition diff_line_body : regex :=
  Seq (Group 1 (Opt (Class is_indicator)))
      (Seq (Group 2 (Star true (Class is_dot))) Eol).

Lemma rmatch_Class_cons (m : bool) (p : ascii -> bool) pre c s cs :
  rmatch m (Class p) (MState pre (c :: s) cs)
  = if p c then [MState (c :: pre) s cs] else [].
Proof. reflexivity. Qed.

Lemma diff_line_rest : forall l pre tail cs,
  one_line l ->
  (tail = [] \/ exists next, tail = LF :: next) ->
  exists t,
    rmatch true (Seq (Group 2 (Star true (Class is_dot))) Eol)
           (MState pre (l ++ tail) cs)
    = MState (rev l ++ pre) tail ((2, l) :: cs) :: t.
Proof.
  intros l pre tail cs Hl Ht.
  change (rmatch true (Seq (Group 2 (Star true (Class is_dot))) Eol)
                 (MState pre (l ++ tail) cs))
    with (flat_map (rmatch true Eol)
            (map (capture 2 (MState pre (l ++ tail) cs))
                 (rmatch true (Star true (Class is_dot)) (MState pre (l ++ tail) cs)))).
  rewrite rmatch_star_class.
  destruct (star_class_head is_dot l pre tail cs Hl) as [t E].
  { destruct Ht as [->|[next ->]]; reflexivity. }
  rewrite E. cbn [map flat_map]. unfold capture at 1. cbn [rest consumed caps].
  rewrite firstn_app_exact. cbn [rmatch]. rewrite at_eol_tail by exact Ht.
  eexists. reflexivity.
Qed.

Lemma recode_result (pre : list ascii) (s : str) (st' : mstate) (ind content : str) :
  caps st' = [(2, content); (1, ind)] ->
  recode (result_of pre s st')
  = if str_eqb content (lit "[...]") then content
    else (if str_eqb ind (lit "+") then lit "E"
          else if str_eqb ind (lit "-") then lit "A" else []) ++ lit " " ++ content.
Proof.
  intros H. unfold recode, grp, result_of. cbn [groups]. rewrite H. reflexivity.
Qed.

Lemma diff_line_at_start : forall l pre tail,
  one_line l -> line_start pre ->
  (tail = [] \/ exists next, tail = LF :: next) ->
  (rmatch true (Seq Bol diff_line_body) (MState pre (l ++ tail) []) = []
   /\ recode_line l = l)
  \/ (exists st' t,
        rmatch true (Seq Bol diff_line_body) (MState pre (l ++ tail) []) = st' :: t
        /\ rest st' = tail
        /\ consumed st' = rev l ++ pre
        /\ recode (result_of pre (l ++ tail) st') = recode_line l).
Proof.
  intros l pre tail Hl Hpre Ht. right.
  rewrite rmatch_Seq_Bol, at_bol_line_start by exact Hpre.
  unfold diff_line_body.
  change (rmatch true (Seq (Group 1 (Opt (Class is_indicator)))
                           (Seq (Group 2 (Star true (Class is_dot))) Eol))
                 (MState pre (l ++ tail) []))
    with (flat_map (rmatch true (Seq (Group 2 (Star true (Class is_dot))) Eol))
            (map (capture 1 (MState pre (l ++ tail) []))
                 (rmatch true (Class is_indicator) (MState pre (l ++ tail) [])
                  ++ [MState pre (l ++ tail) []]))).
  assert (Hself : capture 1 (MState pre (l ++ tail) []) (MState pre (l ++ tail) [])
                  = MState pre (l ++ tail) [(1, [])]).
  { unfold capture. cbn [rest consumed caps]. now rewrite Nat.sub_diag. }
  destruct l as [|c l].
  - assert (E : rmatch true (Class is_indicator) (MState pre ([] ++ tail) []) = []).
    { destruct Ht as [->|[next ->]]; reflexivity. }
    rewrite E. cbn [app map flat_map]. cbn [app] in Hself. rewrite Hself.
    destruct (diff_line_rest [] pre tail [(1, [])] Hl Ht) as [t Et].
    cbn [app] in Et. rewrite Et.
    eexists. eexists. split; [reflexivity|]. cbn [rest consumed].
    split; [reflexivity|]. split; [reflexivity|].
    now rewrite (recode_result _ _ _ [] []).
  - pose proof (one_line_cons _ _ Hl) as [_ Hl'].
    cbn [app]. rewrite rmatch_Class_cons.
    destruct (is_indicator c) eqn:Hc.
    + cbn [app map flat_map].
      assert (Hcap : capture 1 (MState pre (c :: l ++ tail) [])
                             (MState (c :: pre) (l ++ tail) [])
                     = MState (c :: pre) (l ++ tail) [(1, [c])]).
      { unfold capture. cbn [rest consumed caps].
        pose proof (firstn_app_exact [c] (l ++ tail)) as F.
        cbn [app] in F. now rewrite F. }
      rewrite Hcap.
      destruct (diff_line_rest l (c :: pre) tail [(1, [c])] Hl' Ht) as [t Et].
      rewrite Et.
      eexists. eexists. split; [reflexivity|]. cbn [rest consumed].
      split; [reflexivity|]. split; [cbn [rev]; now rewrite <- app_assoc|].
      rewrite (recode_result _ _ _ [c] l) by reflexivity.
      unfold recode_line, is_indicator, is_char in *.
      destruct (str_eqb l (lit "[...]")) eqn:El.
      * apply str_eqb_eq in El. subst l.
        destruct (Ascii.eqb c "+"); [reflexivity|].
        now destruct (Ascii.eqb c "-").
      * cbn [str_eqb lit list_ascii_of_string].
        destruct (Ascii.eqb c "+"); [reflexivity|].
        destruct (Ascii.eqb c "-"); [reflexivity | discriminate].
    + cbn [app map flat_map]. cbn [app] in Hself. rewrite Hself.
      destruct (diff_line_rest (c :: l) pre tail [(1, [])] Hl Ht) as [t Et].
      cbn [app] in Et. rewrite Et.
      eexists. eexists. split; [reflexivity|]. cbn [rest consumed].
      split; [reflexivity|]. split; [reflexivity|].
      rewrite (recode_result _ _ _ [] (c :: l)) by reflexivity.
      unfold recode_line, is_indicator, is_char in *.
      apply orb_false_iff in Hc as [H1 H2]. rewrite H1, H2.
      now destruct (str_eqb (c :: l) (lit "[...]")).
Qed.

Lemma replace_diff_lines (ls : list str) :
  ls <> [] -> Forall one_line ls ->
  replace_all true re_diff_line recode (join newline ls)
  = join newline (map recode_line ls).
Proof.
  intros Hne Hok.
  apply (replace_all_lines diff_line_body recode one_line recode_line);
    auto using diff_line_at_start.
Qed.

(* ================================================================= *)
(** ** Lines of a text *)

Lemma Forall_firstn {A} (P : A -> Prop) : forall n (l : list A),
  Forall P l -> Forall P (firstn n l).
Proof.
  induction n as [|n IH]; intros l H; [constructor|].
  destruct l as [|x l]; [constructor|].
  inversion H; subst. simpl. constructor; auto.
Qed.

Lemma Forall_skipn {A} (P : A -> Prop) : forall n (l : list A),
  Forall P l -> Forall P (skipn n l).
Proof.
  induction n as [|n IH]; intros l H; [exact H|].
  destruct l as [|x l]; [constructor|].
  inversion H; subst. simpl. auto.
Qed.

Lemma Forall_array_slice {A} (P : A -> Prop) (start stop : Z) (l : list A) :
  Forall P l -> Forall P (array_slice start stop l).
Proof. intros H. unfold array_slice. now apply Forall_firstn, Forall_skipn. Qed.

(** [split] leaves no separator in the pieces. *)
Lemma split_no_sep (sep : ascii) : forall s,
  Forall (fun l => ~ In sep l) (split sep s).
Proof.
  induction s as [|c s IH]; simpl.
  - constructor; [intros [] | constructor].
  - destruct (Ascii.eqb c sep) eqn:E.
    + constructor; [intros [] | exact IH].
    + destruct (split sep s) as [|l ls]; inversion IH; subst.
      * constructor; [|constructor]. intros [H|[]]. subst.
        now rewrite Ascii.eqb_refl in E.
      * constructor; [|assumption]. intros [H|H]; [|contradiction].
        subst. now rewrite Ascii.eqb_refl in E.
Qed.

Lemma split_nonempty (sep : ascii) (s : str) : split sep s <> [].
Proof.
  destruct s as [|c s]; simpl; [discriminate|].
  destruct (Ascii.eqb c sep); [discriminate|].
  destruct (split sep s); discriminate.
Qed.

Lemma is_dot_iff (c : ascii) : is_dot c = true <-> c <> LF /\ c <> CR.
Proof.
  unfold is_dot, is_line_terminator, is_char.
  rewrite negb_true_iff, orb_false_iff, !Ascii.eqb_neq. reflexivity.
Qed.

Lemma one_line_iff (l : str) : one_line l <-> ~ In LF l /\ ~ In CR l.
Proof.
  unfold one_line. induction l as [|c l IH]; simpl.
  - intuition.
  - rewrite andb_true_iff, IH, is_dot_iff. intuition congruence.
Qed.

Lemma nonempty_join_cons (sep x : str) (y : str) (ys : list str) :
  sep <> [] -> nonempty (join sep (x :: y :: ys)) = true.
Proof.
  intros H. cbn [join]. destruct x; [|reflexivity].
  destruct sep; [congruence | reflexivity].
Qed.

Lemma mark_nonempty (l : str) : nonempty (mark l) = nonempty l.
Proof.
  unfold mark. destruct (is_hunk_range l) eqn:H; [|reflexivity].
  apply is_hunk_range_split in H as [x [-> _]]. reflexivity.
Qed.

Lemma nonempty_join_mark (ls : list str) :
  nonempty (join newline (map mark ls)) = nonempty (join newline ls).
Proof.
  destruct ls as [|x [|y ys]].
  - reflexivity.
  - simpl. apply mark_nonempty.
  - cbn [map]. rewrite !nonempty_join_cons; [reflexivity | discriminate | discriminate].
Qed.

Lemma mark_one_line (l : str) : one_line l -> one_line (mark l).
Proof. unfold mark. now destruct (is_hunk_range l). Qed.

(** The text of the patch, rendered: the range markers are replaced, then
    every line is recoded. *)
Lemma renderPatch_lines (patch : str) :
  let ls := array_slice 5 (-1) (split LF patch) in
  Forall marker_ok ls ->
  renderPatch patch
  = if nonempty (join newline ls)
    then join newline (map (fun l => recode_line (mark l)) ls)
    else [].
Proof.
  intros ls Hok. unfold renderPatch. fold ls.
  destruct (nonempty (join newline ls)) eqn:Hne.
  - assert (Hls : ls <> []) by (intros E; rewrite E in Hne; discriminate).
    rewrite (replace_hunk_ranges ls Hls Hok), nonempty_join_mark, Hne.
    rewrite replace_diff_lines, map_map.
    + reflexivity.
    + destruct ls; [congruence | discriminate].
    + apply Forall_map. eapply Forall_impl; [|exact Hok].
      intros l [H _]. now apply mark_one_line.
  - destruct (join newline ls); [reflexivity | discriminate].
Qed.

(* ================================================================= *)
(** ** The lines of the diff *)

(** What [createDiff] makes of a line of the patch. *)
Definition rendered (l : str) : str := recode_line (mark l).

(** The recoding as the specification words it: a range marker becomes
    [[...]], a [[...]] line stays, and any other line is recoded by its
    indicator. *)
Definition spec_rendered (l : str) : str :=
  if is_hunk_range l then lit "[...]"
  else if str_eqb l (lit "[...]") then l
  else match l with
       | c :: content =>
           if Ascii.eqb c "+" then lit "E " ++ content
           else if Ascii.eqb c "-" then lit "A " ++ content
           else lit " " ++ l
       | [] => lit " "
       end.

(** What the lines of a unified diff of two serialized values have in
    common: a line has no carriage return; only a range marker begins with
    [@@], since every other line begins with [+], [-] or a blank; and no
    line of a serialized value is the bare text [[...]], so that no line of
    the diff is [+[...]] or [-[...]]. *)
Definition is_patch_line (l : str) : bool :=
  forallb is_dot l &&
  (negb (prefixb (lit "@@") l) || is_hunk_range l) &&
  negb (str_eqb l (lit "+[...]")) && negb (str_eqb l (lit "-[...]")).

Lemma patch_line_marker_ok (l : str) : is_patch_line l = true -> marker_ok l.
Proof.
  unfold is_patch_line, marker_ok, one_line. intros H.
  apply andb_true_iff in H as [H _]. apply andb_true_iff in H as [H _].
  apply andb_true_iff in H as [H1 H2]. split; [exact H1|].
  intros Hp. rewrite Hp in H2. exact H2.
Qed.

Lemma patch_line_rendered (l : str) :
  is_patch_line l = true -> rendered l = spec_rendered l.
Proof.
  unfold is_patch_line, rendered, spec_rendered, mark. intros H.
  apply andb_true_iff in H as [H Hminus]. apply andb_true_iff in H as [_ Hplus].
  apply negb_true_iff in Hplus, Hminus.
  destruct (is_hunk_range l) eqn:Hh; [reflexivity|].
  destruct l as [|c content]; [reflexivity|]. cbn [recode_line].
  destruct (Ascii.eqb c "+") eqn:Ec.
  - apply Ascii.eqb_eq in Ec. subst c.
    change (str_eqb ("+"%char :: content) (lit "+[...]"))
      with (str_eqb content (lit "[...]")) in Hplus.
    rewrite Hplus. reflexivity.
  - destruct (Ascii.eqb c "-") eqn:Ec'; [|reflexivity].
    apply Ascii.eqb_eq in Ec'. subst c.
    change (str_eqb ("-"%char :: content) (lit "-[...]"))
      with (str_eqb content (lit "[...]")) in Hminus.
    rewrite Hminus. reflexivity.
Qed.

(** C5. Take the lines of the patch that [createDiff] keeps, lines as a
    unified diff of serialized values has them (see [is_patch_line]).  The
    diff is made of these lines, one for one, joined by line breaks, and is
    empty when there is nothing in them: a range marker [@@...@@] becomes
    [[...]] and a [[...]] line stays as it is; a line [+] content becomes
    [E ] content, a line [-] content becomes [A ] content, and a line
    without an indicator gets one blank in front. *)
Theorem createDiff_lines :
  forall toJSON createPatch (actual expected : value),
    let patch := createPatch [] (toJSON actual ++ newline)
                             (toJSON expected ++ newline) [] [] in
    let ls := array_slice 5 (-1) (split LF patch) in
    forallb is_patch_line ls = true ->
    createDiff toJSON createPatch actual expected
    = (if nonempty (join newline ls) then join newline (map spec_rendered ls) else [])
    /\ forall l, In l ls ->
         (is_hunk_range l = true -> spec_rendered l = lit "[...]")
         /\ (l = lit "[...]" -> spec_rendered l = l)
         /\ (forall content, l = "+"%char :: content ->
                             spec_rendered l = lit "E " ++ content)
         /\ (forall content, l = "-"%char :: content ->
                             spec_rendered l = lit "A " ++ content)
         /\ (is_hunk_range l = false -> l <> lit "[...]" ->
             prefixb (lit "+") l = false -> prefixb (lit "-") l = false ->
             spec_rendered l = lit " " ++ l).
Proof.
  intros toJSON createPatch actual expected patch ls Hls.
  rewrite forallb_forall in Hls. split.
  - unfold createDiff. fold patch. rewrite renderPatch_lines.
    + fold ls. destruct (nonempty (join newline ls)); [|reflexivity].
      f_equal. apply map_ext_in. intros l Hl.
      apply patch_line_rendered. now apply Hls.
    + fold ls. apply Forall_forall. intros l Hl. apply patch_line_marker_ok.
      now apply Hls.
  - intros l Hl. specialize (Hls l Hl). unfold spec_rendered.
    split; [|split; [|split; [|split]]].
    + intros ->. reflexivity.
    + intros ->. reflexivity.
    + intros content ->. reflexivity.
    + intros content ->. reflexivity.
    + intros Hh Hne Hplus Hminus. rewrite Hh.
      destruct (str_eqb l (lit "[...]")) eqn:E;
        [apply str_eqb_eq in E; contradiction|].
      destruct l as [|c content]; [reflexivity|].
      cbn [prefixb lit list_ascii_of_string] in Hplus, Hminus.
      rewrite Ascii.eqb_sym in Hplus. rewrite Ascii.eqb_sym in Hminus.
      destruct (Ascii.eqb c "+"); [discriminate|].
      destruct (Ascii.eqb c "-"); [discriminate|]. reflexivity.
Qed.

(** A patch with two hunks, of two arrays printed one item a line that
    differ in their second and in their last item. *)
Lemma createDiff_lines_witness :
  createDiff Sample.toJSON
             (fun _ _ _ _ _ => lit "Index: 
===================================================================
--- 
+++ 
@@ -1,4 +1,4 @@
 [
   1,
-  2,
+  20,
   3,
@@ -12,4 +12,4 @@
   12,
   13,
-  14
+  15
 ]
")
             (VArray []) (VArray [])
  = lit "  [
    1,
A   2,
E   20,
    3,
[...]
    12,
    13,
A   14
E   15
  ]".
Proof.
  refine (eq_trans (proj1 (createDiff_lines Sample.toJSON
    (fun _ _ _ _ _ => lit "Index: 
===================================================================
--- 
+++ 
@@ -1,4 +1,4 @@
 [
   1,
-  2,
+  20,
   3,
@@ -12,4 +12,4 @@
   12,
   13,
-  14
+  15
 ]
") (VArray []) (VArray []) _)) _); vm_compute; reflexivity.
Defined.

(* ================================================================= *)
(** ** Trailing white space *)

(** The text without the white space at its end. *)
Fixpoint rtrim (s : str) : str :=
  match s with
  | [] => []
  | c :: s' => if forallb is_space s then [] else c :: rtrim s'
  end.

Lemma rmatch_trailing_space (pre : list ascii) (s : str) :
  rmatch false re_trailing_space (MState pre s [])
  = if nonempty s && forallb is_space s then [MState (rev s ++ pre) [] []] else [].
Proof.
  unfold re_trailing_space, Plus.
  change (rmatch false (Seq (Seq (Class is_space) (Star true (Class is_space))) Eol)
                 (MState pre s []))
    with (flat_map (rmatch false Eol)
            (flat_map (rmatch false (Star true (Class is_space)))
                      (rmatch false (Class is_space) (MState pre s [])))).
  destruct s as [|c s]; [reflexivity|].
  rewrite rmatch_Class_cons. cbn [nonempty forallb andb].
  destruct (is_space c); [|reflexivity].
  cbn [flat_map]. rewrite app_nil_r, rmatch_star_class, blank_results.
  cbn [andb rev]. now rewrite <- app_assoc.
Qed.

Lemma search_trailing_space : forall s pre,
  match search false re_trailing_space pre s with
  | Some m => rev (before m) ++ [] ++ after m
  | None => rev pre ++ s
  end = rev pre ++ rtrim s.
Proof.
  induction s as [|c s IH]; intros pre.
  - reflexivity.
  - cbn [search]. rewrite rmatch_trailing_space. cbn [nonempty andb rtrim].
    destruct (forallb is_space (c :: s)).
    + reflexivity.
    + replace (rev pre ++ c :: s) with (rev (c :: pre) ++ s)
        by (cbn [rev]; now rewrite <- app_assoc).
      rewrite IH. cbn [rev]. now rewrite <- app_assoc.
Qed.

(** [stack.replace(/\s+$/, '')] removes the white space at the end. *)
Lemma replace_trailing_space (s : str) :
  replace_first false re_trailing_space (fun _ => []) s = rtrim s.
Proof.
  unfold replace_first, exec.
  pose proof (search_trailing_space s []) as H.
  destruct (search false re_trailing_space [] s); exact H.
Qed.

(** The text ends in a character that is not white space. *)
Definition ends_with_text (s : str) : Prop :=
  exists z d, s = z ++ [d] /\ is_space d = false.

Lemma rtrim_nil_blank : forall s, rtrim s = [] -> forallb is_space s = true.
Proof.
  intros [|c s] H; [reflexivity|]. cbn [rtrim] in H.
  destruct (forallb is_space (c :: s)); [reflexivity | discriminate].
Qed.

Lemma rtrim_ends : forall s, rtrim s = [] \/ ends_with_text (rtrim s).
Proof.
  induction s as [|c s IH]; [now left|].
  cbn [rtrim]. destruct (forallb is_space (c :: s)) eqn:E; [now left|]. right.
  destruct IH as [H|[z [d [H Hd]]]].
  - exists [], c. rewrite H. split; [reflexivity|].
    apply rtrim_nil_blank in H. cbn [forallb] in E. rewrite H in E.
    now rewrite andb_true_r in E.
  - exists (c :: z), d. rewrite H. now split.
Qed.

Lemma rtrim_fixed : forall s, ends_with_text s -> rtrim s = s.
Proof.
  intros s [z [d [-> Hd]]]. induction z as [|c z IH].
  - cbn [app rtrim forallb]. now rewrite Hd.
  - cbn [app rtrim]. rewrite IH.
    assert (E : forallb is_space (c :: z ++ [d]) = false).
    { cbn [forallb]. rewrite forallb_app. cbn [forallb]. rewrite Hd.
      now rewrite andb_false_r, andb_false_r. }
    now rewrite E.
Qed.

Lemma ends_with_text_app (a s : str) : ends_with_text s -> ends_with_text (a ++ s).
Proof.
  intros [z [d [-> Hd]]]. exists (a ++ z), d. now rewrite app_assoc.
Qed.

Lemma ends_with_text_cons (c : ascii) (s : str) :
  ends_with_text s -> ends_with_text (c :: s).
Proof. apply (ends_with_text_app [c]). Qed.

(* ================================================================= *)
(** ** Splitting and joining *)

Lemma split_one_line (sep : ascii) : forall l,
  ~ In sep l -> split sep l = [l].
Proof.
  induction l as [|c l IH]; intros H; [reflexivity|].
  cbn [split]. destruct (Ascii.eqb c sep) eqn:E.
  - apply Ascii.eqb_eq in E. subst. exfalso. apply H. now left.
  - rewrite IH; [reflexivity|]. intros Hin. apply H. now right.
Qed.

Lemma split_app_sep (sep : ascii) : forall l s,
  ~ In sep l -> split sep (l ++ sep :: s) = l :: split sep s.
Proof.
  induction l as [|c l IH]; intros s H.
  - cbn [app split]. now rewrite Ascii.eqb_refl.
  - cbn [app split]. destruct (Ascii.eqb c sep) eqn:E.
    + apply Ascii.eqb_eq in E. subst. exfalso. apply H. now left.
    + rewrite IH; [reflexivity|]. intros Hin. apply H. now right.
Qed.

(** Splitting undoes joining when no piece holds the separator. *)
Lemma split_join : forall ls,
  ls <> [] -> Forall (fun l => ~ In LF l) ls ->
  split LF (join newline ls) = ls.
Proof.
  induction ls as [|l ls IH]; intros Hne H; [congruence|].
  inversion H as [|? ? Hl Hls]; subst.
  destruct ls as [|l2 ls].
  - now apply split_one_line.
  - change (join newline (l :: l2 :: ls)) with (l ++ LF :: join newline (l2 :: ls)).
    rewrite split_app_sep by exact Hl. rewrite IH; [reflexivity | discriminate | exact Hls].
Qed.

Lemma split_last : forall s,
  ends_with_text s ->
  exists ls x, split LF s = ls ++ [x] /\ ends_with_text x.
Proof.
  induction s as [|c s IH]; intros Hs.
  - destruct Hs as [z [d [E _]]]. destruct z; discriminate.
  - destruct s as [|c2 s].
    + destruct Hs as [z [d [E Hd]]].
      destruct z as [|? [|? ?]]; try discriminate. injection E as ->.
      exists [], [d]. split.
      * cbn [split]. destruct (Ascii.eqb d LF) eqn:E; [|reflexivity].
        apply Ascii.eqb_eq in E. subst. discriminate.
      * now exists [], d.
    + assert (Hs' : ends_with_text (c2 :: s)).
      { destruct Hs as [z [d [E Hd]]]. destruct z as [|c' z]; [discriminate|].
        injection E as -> E. now exists z, d. }
      destruct (IH Hs') as [ls [x [E Hx]]].
      cbn [split] in *. destruct (Ascii.eqb c LF).
      * exists ([] :: ls), x. rewrite E. now split.
      * rewrite E. destruct ls as [|l ls].
        -- exists [], (c :: x). split; [reflexivity|]. now apply ends_with_text_cons.
        -- exists ((c :: l) :: ls), x. now split.
Qed.

Lemma join_last (sep : str) : forall ls x,
  exists a, join sep (ls ++ [x]) = a ++ x.
Proof.
  induction ls as [|l ls IH]; intros x.
  - now exists [].
  - destruct (IH x) as [a E]. cbn [app].
    destruct (ls ++ [x]) as [|y ys] eqn:El; [destruct ls; discriminate|].
    exists (l ++ sep ++ a).
    change (join sep (l :: y :: ys)) with (l ++ sep ++ join sep (y :: ys)).
    now rewrite E, <- !app_assoc.
Qed.

(* ================================================================= *)
(** ** What the parsers return *)

Lemma infix_no_char (c : ascii) (v s : str) : infix v s -> ~ In c s -> ~ In c v.
Proof.
  intros [a [b ->]] H Hv. apply H. apply in_or_app. right.
  apply in_or_app. now left.
Qed.

(** What a match captures are pieces of the text searched. *)
Lemma search_groups (m : bool) (r : regex) : forall s pre res,
  search m r pre s = Some res ->
  forall n v, In (n, v) (groups res) -> infix v s.
Proof.
  induction s as [|c s IH]; intros pre res H n v Hin; cbn [search] in H.
  - destruct (rmatch m r (MState pre [] [])) as [|st' t] eqn:E; [discriminate|].
    injection H as <-. cbn [groups result_of] in Hin.
    destruct (rmatch_moves m r (MState pre [] []) st') as [_ C];
      [rewrite E; now left|].
    destruct (C n v Hin) as [[]|Hi]. exact Hi.
  - destruct (rmatch m r (MState pre (c :: s) [])) as [|st' t] eqn:E.
    + apply (infix_app_r v s [c]). eapply IH; eauto.
    + injection H as <-. cbn [groups result_of] in Hin.
      destruct (rmatch_moves m r (MState pre (c :: s) []) st') as [_ C];
        [rewrite E; now left|].
      destruct (C n v Hin) as [[]|Hi]. exact Hi.
Qed.

Lemma assoc_In (n : nat) : forall l v, assoc n l = Some v -> In (n, v) l.
Proof.
  induction l as [|[k w] l IH]; intros v H; [discriminate|].
  cbn [assoc] in H. destruct (k =? n) eqn:E.
  - apply Nat.eqb_eq in E. injection H as ->. subst. now left.
  - right. now apply IH.
Qed.

Lemma grp_no_char (m : bool) (r : regex) (s : str) (res : match_result)
      (n : nat) (c : ascii) :
  exec m r s = Some res -> ~ In c s -> ~ In c (grp n res).
Proof.
  intros H Hs. unfold grp. destruct (assoc n (groups res)) as [v|] eqn:E.
  - apply assoc_In in E. eapply infix_no_char; [|exact Hs].
    eapply search_groups; eauto.
  - intros [].
Qed.

Section Parsers.

Variable getSource : str -> str.

(** The resolver puts no line break into a location that has none. *)
Hypothesis getSource_one_line : forall x, ~ In LF x -> ~ In LF (getSource x).

Lemma formatLine_no_LF (data : Frame) :
  ~ In LF (String_ (func data)) -> ~ In LF (source data) ->
  ~ In LF (formatLine data getSource).
Proof.
  intros Hf Hs. unfold formatLine.
  destruct (negb (truthy (func data))); intros H;
    repeat (apply in_app_or in H as [H|H]);
    try (now apply (getSource_one_line (source data) Hs));
    try (now apply Hf);
    simpl in H; repeat (destruct H as [H|H]; [discriminate|]); exact H.
Qed.

Lemma chromeLine_no_LF (l : str) : ~ In LF l -> ~ In LF (chromeLine getSource l).
Proof.
  intros Hl. unfold chromeLine.
  destruct (exec false re_chrome_call l) as [m|] eqn:E1.
  - apply formatLine_no_LF; cbn [func source String_]; eapply grp_no_char; eauto.
  - destruct (exec false re_chrome_plain l) as [m|] eqn:E2; [|exact Hl].
    apply formatLine_no_LF; cbn [func source String_];
      [|eapply grp_no_char; eauto].
    intros H. simpl in H.
    repeat (destruct H as [H|H]; [discriminate|]). exact H.
Qed.

Lemma safariLine_no_LF (l : str) : ~ In LF l -> ~ In LF (safariLine getSource l).
Proof.
  intros Hl. unfold safariLine.
  destruct (exec false re_safari_call l) as [m|] eqn:E1.
  - apply formatLine_no_LF; cbn [func source String_]; eapply grp_no_char; eauto.
  - destruct (exec false re_safari_url l) as [m|] eqn:E2; [|exact Hl].
    apply formatLine_no_LF; cbn [func source String_];
      [|eapply grp_no_char; eauto].
    intros H. simpl in H.
    repeat (destruct H as [H|H]; [discriminate|]). exact H.
Qed.

Lemma parseLines_no_LF (lines : list str) :
  Forall (fun l => ~ In LF l) lines ->
  Forall (fun l => ~ In LF l) (parseLines lines getSource).
Proof.
  intros H. unfold parseLines, processChromeTrace, processSafariTrace.
  destruct (test false re_at (line0 lines)); apply Forall_map;
    (eapply Forall_impl; [|exact H]); intros l Hl;
    [now apply chromeLine_no_LF | now apply safariLine_no_LF].
Qed.

End Parsers.

Lemma formatLine_ends (data : Frame) (g : str -> str) :
  ends_with_text (formatLine data g).
Proof.
  unfold formatLine. destruct (negb (truthy (func data))).
  - exists (lit "  at <" ++ g (source data)), ">"%char.
    split; [now rewrite <- app_assoc | reflexivity].
  - exists (lit "  at " ++ String_ (func data) ++ lit "  <" ++ g (source data)), ">"%char.
    split; [now rewrite <- !app_assoc | reflexivity].
Qed.

Lemma chromeLine_ends (g : str -> str) (l : str) :
  ends_with_text l -> ends_with_text (chromeLine g l).
Proof.
  intros H. unfold chromeLine.
  destruct (exec false re_chrome_call l); [apply formatLine_ends|].
  destruct (exec false re_chrome_plain l); [apply formatLine_ends | exact H].
Qed.

Lemma safariLine_ends (g : str -> str) (l : str) :
  ends_with_text l -> ends_with_text (safariLine g l).
Proof.
  intros H. unfold safariLine.
  destruct (exec false re_safari_call l); [apply formatLine_ends|].
  destruct (exec false re_safari_url l); [apply formatLine_ends | exact H].
Qed.

Lemma parseLines_last (g : str -> str) (ls : list str) (x : str) :
  ends_with_text x ->
  exists ps y, parseLines (ls ++ [x]) g = ps ++ [y] /\ ends_with_text y.
Proof.
  intros H. unfold parseLines, processChromeTrace, processSafariTrace.
  destruct (test false re_at (line0 (ls ++ [x]))); rewrite map_app; cbn [map].
  - exists (map (chromeLine g) ls), (chromeLine g x).
    split; [reflexivity | now apply chromeLine_ends].
  - exists (map (safariLine g) ls), (safariLine g x).
    split; [reflexivity | now apply safariLine_ends].
Qed.

Lemma parseLines_cons_has_text (g : str -> str) (x : str) (t : list str) :
  has_text x = true ->
  exists y ys, parseLines (x :: t) g = y :: ys /\ has_text y = true.
Proof.
  intros H. unfold parseLines, processChromeTrace, processSafariTrace.
  destruct (test false re_at (line0 (x :: t))); cbn [map].
  - eexists. eexists. split; [reflexivity | now apply chromeLine_has_text].
  - eexists. eexists. split; [reflexivity | now apply safariLine_has_text].
Qed.

Lemma has_text_not_all_space (s : str) :
  has_text s = true -> forallb is_space s = false.
Proof.
  unfold has_text. induction s as [|c s IH]; simpl; [discriminate|].
  destruct (is_space c); simpl; auto.
Qed.

(* ================================================================= *)
(** ** Normalizing a second time *)

Lemma parseLines_length (lines : list str) (g : str -> str) :
  length (parseLines lines g) = length lines.
Proof.
  unfold parseLines, processChromeTrace, processSafariTrace.
  destruct (test false re_at (line0 lines)); apply length_map.
Qed.

Lemma stripBlank_has_text (x : str) (t : list str) :
  has_text x = true -> stripBlank (x :: t) = x :: t.
Proof.
  intros H. rewrite stripBlank_cons, test_blank.
  now rewrite (has_text_not_all_space _ H).
Qed.

(** A stack without an error-name line whose first line is not blank: its
    content lines are its lines, the first one has text, and the last one
    ends in text. *)
Lemma plain_stack_lines (stack : str) :
  hasErrorName (stackLinesOf stack) = false ->
  test false re_blank (line0 (stackLinesOf stack)) = false ->
  firstLineOf stack = []
  /\ contentLines stack = stackLinesOf stack
  /\ (exists x t, stackLinesOf stack = x :: t /\ has_text x = true)
  /\ (exists ls y, stackLinesOf stack = ls ++ [y] /\ ends_with_text y)
  /\ Forall (fun l => ~ In LF l) (stackLinesOf stack).
Proof.
  intros H1 H2.
  assert (Hx : exists x t, stackLinesOf stack = x :: t /\ has_text x = true).
  { destruct (stackLinesOf stack) as [|x t] eqn:E.
    - exfalso. unfold stackLinesOf in E. now apply split_nonempty in E.
    - exists x, t. split; [reflexivity|]. cbn [line0 nth] in H2.
      rewrite test_blank in H2. now apply has_text_not_blank. }
  split; [unfold firstLineOf; now rewrite H1|].
  split.
  { unfold contentLines. rewrite H1. destruct Hx as [x [t [E Hx]]].
    rewrite E. now apply stripBlank_has_text. }
  split; [exact Hx|].
  split.
  - unfold stackLinesOf in *. rewrite replace_trailing_space in *.
    destruct (rtrim_ends stack) as [E|E].
    + rewrite E in H2. discriminate.
    + now apply split_last.
  - apply split_no_sep.
Qed.

(** The stack [ at foo (bar.js:1:2)] is normalized to the line
    [  at foo  <bar.js:1:2>]; normalized again, this line is read as a frame
    without a function name and comes out as [  at <foo  <bar.js:1:2>>]. *)
Lemma renormalized_frame_differs :
  let once := normalizeStackTrace (lit "    at foo (bar.js:1:2)") false (fun x => x) in
  let twice := normalizeStackTrace once false (fun x => x) in
  hasErrorName (stackLinesOf (lit "    at foo (bar.js:1:2)")) = false
  /\ test false re_blank (line0 (stackLinesOf (lit "    at foo (bar.js:1:2)"))) = false
  /\ once = lit "
  at foo  <bar.js:1:2>"
  /\ twice = lit "
  at <foo  <bar.js:1:2>>"
  /\ twice <> once
  /\ normalizedLines once false (fun x => x)
     <> normalizedLines (lit "    at foo (bar.js:1:2)") false (fun x => x).
Proof.
  cbv zeta. repeat split; vm_compute; try reflexivity; discriminate.
Qed.

(** With the filter on, even the number of lines may change: the first pass
    drops the noise frame and leaves a blank line in front, which the second
    pass strips. *)
Example renormalized_filtered_count :
  let stack := lit "at node_modules/x

foo" in
  let once := normalizeStackTrace stack true (fun x => x) in
  normalizedLines stack true (fun x => x) = [[]; lit "foo"]
  /\ normalizedLines once true (fun x => x) = [lit "foo"].
Proof. cbv zeta. split; vm_compute; reflexivity. Qed.

(** C4, as the code has it. Take a stack without an error-name line and
    without leading blank lines, a resolver that puts no line break into a
    location that has none (as the default one), and the filter off.
    Normalizing the output of the normalization reads back exactly the lines
    of that output and parses each of them again: the second output has as
    many lines as the first, and its lines are the parsed lines of the first
    (a line of the form [  at ...] is wrapped once more, so the content is
    not the same in general). *)
Theorem renormalize_lines :
  forall (stack : str) (getSource : str -> str),
    hasErrorName (stackLinesOf stack) = false ->
    test false re_blank (line0 (stackLinesOf stack)) = false ->
    (forall x, ~ In LF x -> ~ In LF (getSource x)) ->
    let once := normalizeStackTrace stack false getSource in
    firstLineOf once = []
    /\ contentLines once = normalizedLines stack false getSource
    /\ normalizedLines once false getSource
       = parseLines (normalizedLines stack false getSource) getSource
    /\ length (normalizedLines once false getSource)
       = length (normalizedLines stack false getSource).
Proof.
  intros stack g H1 H2 Hg once.
  destruct (plain_stack_lines stack H1 H2)
    as [Hfirst [Hcontent [[x [t [Ex Hx]]] [[ls [y [Ey Hy]]] Hlf]]]].
  set (parsed := normalizedLines stack false g).
  assert (Eparsed : parsed = parseLines (stackLinesOf stack) g).
  { unfold parsed, normalizedLines. now rewrite Hcontent. }
  assert (Hplf : Forall (fun l => ~ In LF l) parsed).
  { rewrite Eparsed. now apply parseLines_no_LF. }
  assert (Hpx : exists p ps, parsed = p :: ps /\ has_text p = true).
  { rewrite Eparsed, Ex. now apply parseLines_cons_has_text. }
  assert (Hpy : exists ps q, parsed = ps ++ [q] /\ ends_with_text q).
  { rewrite Eparsed, Ey. now apply parseLines_last. }
  assert (Eonce : once = LF :: join newline parsed).
  { unfold once, normalizeStackTrace. now rewrite Hfirst. }
  assert (Hlines : stackLinesOf once = [] :: parsed).
  { unfold stackLinesOf. rewrite replace_trailing_space, rtrim_fixed.
    - rewrite Eonce. cbn [split]. rewrite Ascii.eqb_refl.
      rewrite split_join; [reflexivity | | exact Hplf].
      destruct Hpx as [p [ps [-> _]]]. discriminate.
    - rewrite Eonce. apply ends_with_text_cons.
      destruct Hpy as [ps [q [-> Hq]]].
      destruct (join_last newline ps q) as [a ->].
      now apply ends_with_text_app. }
  assert (Hname : hasErrorName (stackLinesOf once) = false)
    by (rewrite Hlines; reflexivity).
  assert (Hc : contentLines once = parsed).
  { unfold contentLines. rewrite Hname, Hlines.
    destruct Hpx as [p [ps [-> Hp]]].
    rewrite stripBlank_cons.
    replace (test false re_blank []) with true by reflexivity.
    now apply stripBlank_has_text. }
  split; [unfold firstLineOf; now rewrite Hname|].
  split; [exact Hc|].
  assert (Hn : normalizedLines once false g = parseLines parsed g).
  { unfold normalizedLines at 1. now rewrite Hc. }
  split; [exact Hn|].
  rewrite Hn. apply parseLines_length.
Qed.

Lemma renormalize_lines_witness :
  let stack := lit "    at foo (bar.js:1:2)
bar@baz.js:3" in
  let once := normalizeStackTrace stack false (fun x => x) in
  length (normalizedLines once false (fun x => x))
  = length (normalizedLines stack false (fun x => x)).
Proof.
  exact (proj2 (proj2 (proj2
    (renormalize_lines (lit "    at foo (bar.js:1:2)
bar@baz.js:3") (fun x => x)
       ltac:(vm_compute; reflexivity) ltac:(vm_compute; reflexivity)
       (fun x H => H))))).
Defined.

(* ================================================================= *)
(** ** The indentation *)

Lemma map_prefix_no_LF (sp : str) (ls : list str) :
  ~ In LF sp ->
  Forall (fun l => ~ In LF l) ls ->
  Forall (fun l => ~ In LF l) (map (fun line => sp ++ line) ls).
Proof.
  intros Hsp H. apply Forall_map. eapply Forall_impl; [|exact H].
  intros l Hl Hin. apply in_app_or in Hin as [Hin|Hin]; auto.
Qed.

(** With [space] set to a text without a line break, the lines of the
    output are the lines of the message, each with [space] in front: every
    line is indented, the first one too, and no line is added or lost. *)
Theorem indent_lines :
  forall (sp message : str),
    ~ In LF sp ->
    split LF (indent (Some sp) message)
    = map (fun line => sp ++ line) (split LF message)
    /\ length (split LF (indent (Some sp) message)) = length (split LF message).
Proof.
  intros sp message Hsp.
  assert (E : split LF (indent (Some sp) message)
              = map (fun line => sp ++ line) (split LF message)).
  { unfold indent. apply split_join.
    - pose proof (split_nonempty LF message) as H.
      destruct (split LF message); [congruence | discriminate].
    - apply map_prefix_no_LF; [exact Hsp | apply split_no_sep]. }
  split; [exact E|]. rewrite E. apply length_map.
Qed.

Lemma indent_lines_witness :
  split LF (indent (Some (lit "  ")) (lit "Error: boom
  at a.js:3:14
No stack"))
  = [lit "  Error: boom"; lit "    at a.js:3:14"; lit "  No stack"].
Proof.
  exact (proj1 (indent_lines (lit "  ") (lit "Error: boom
  at a.js:3:14
No stack") ltac:(intros H; simpl in H; intuition discriminate))).
Defined.

(* ================================================================= *)
(** ** A normalized frame read by the bracket-call parser *)

(** A pattern whose every match ends with the character [c] at the end of
    the input. *)
Inductive final_char (c : ascii) : regex -> Prop :=
| final_here : final_char c (Seq (Chr c) Eol)
| final_later (r1 r2 : regex) : final_char c r2 -> final_char c (Seq r1 r2).

Lemma final_char_match (c : ascii) (r : regex) :
  final_char c r ->
  forall st st', In st' (rmatch false r st) -> exists x, rest st = x ++ [c].
Proof.
  induction 1 as [|r1 r2 _ IH]; intros st st' Hin.
  - destruct st as [pre [|d [|e s]] cs]; cbn in Hin.
    + destruct Hin.
    + unfold is_char in Hin. destruct (Ascii.eqb d c) eqn:E; [|destruct Hin].
      apply Ascii.eqb_eq in E. subst. now exists [].
    + unfold is_char in Hin. destruct (Ascii.eqb d c); destruct Hin.
  - cbn [rmatch] in Hin. apply in_flat_map in Hin as [mid [H1 H2]].
    destruct (rmatch_moves false r1 st mid H1) as [[y [Hy _]] _].
    destruct (IH mid st' H2) as [x Hx].
    exists (y ++ x). now rewrite Hy, Hx, app_assoc.
Qed.

Lemma final_char_chrome_call : final_char ")" re_chrome_call.
Proof.
  unfold re_chrome_call. repeat (first [apply final_here | apply final_later]).
Qed.

Lemma app_last_inj {A} (x y : list A) (a b : A) : x ++ [a] = y ++ [b] -> a = b.
Proof.
  intros H. apply (f_equal (@rev A)) in H. rewrite !rev_app_distr in H.
  now injection H.
Qed.

(** A line that does not end in [)] is no call frame of the bracket-call
    dialect. *)
Lemma exec_chrome_call_none (z : str) (d : ascii) :
  d <> ")"%char -> exec false re_chrome_call (z ++ [d]) = None.
Proof.
  intros Hd. unfold exec.
  assert (H : forall s pre, (exists z', s = z' ++ [d]) \/ s = [] ->
                            search false re_chrome_call pre s = None).
  { induction s as [|c s IH]; intros pre Hs; cbn [search].
    - destruct (rmatch false re_chrome_call (MState pre [] [])) as [|st' t] eqn:E;
        [reflexivity|].
      destruct (final_char_match _ _ final_char_chrome_call (MState pre [] []) st')
        as [x Hx]; [rewrite E; now left|].
      destruct x; discriminate.
    - destruct (rmatch false re_chrome_call (MState pre (c :: s) [])) as [|st' t] eqn:E.
      + apply IH. destruct Hs as [[z' Hz]|Hz]; [|discriminate].
        destruct z' as [|c' z']; [right | left].
        * now injection Hz.
        * injection Hz as _ ->. now exists z'.
      + destruct (final_char_match _ _ final_char_chrome_call
                                   (MState pre (c :: s) []) st') as [x Hx];
          [rewrite E; now left|].
        destruct Hs as [[z' Hz]|Hz]; [|discriminate].
        cbn [rest] in Hx. rewrite Hz in Hx. apply app_last_inj in Hx. congruence. }
  apply H. left. now exists z.
Qed.

(** The plain pattern of the bracket-call dialect takes the rest of a
    normalized line as the source. *)
Lemma exec_chrome_plain_formatted (x : str) :
  one_line x ->
  exists m, exec false re_chrome_plain (lit "  at " ++ x) = Some m /\ grp 1 m = x.
Proof.
  intros Hx. unfold re_chrome_plain. rewrite exec_Bol.
  change (rmatch false
            (Seq (Star true (Class is_space))
                 (Seq (Lit (lit "at ")) (Group 1 (Star true (Class is_dot)))))
            (MState [] (lit "  at " ++ x) []))
    with (flat_map (rmatch false (Seq (Lit (lit "at "))
                                      (Group 1 (Star true (Class is_dot)))))
            (rmatch false (Star true (Class is_space))
                    (MState [] (lit "  at " ++ x) []))).
  rewrite rmatch_star_class.
  change (star_class true is_space [] (lit "  at " ++ x) [])
    with [MState (rev (lit "  ")) (lit "at " ++ x) [];
          MState (rev (lit " ")) (lit " at " ++ x) [];
          MState [] (lit "  at " ++ x) []].
  cbn [flat_map]. rewrite rmatch_Seq_Lit, prefixb_app, skipn_app_exact.
  change (rmatch false (Group 1 (Star true (Class is_dot)))
                 (MState (rev (lit "at ") ++ rev (lit "  ")) x []))
    with (map (capture 1 (MState (rev (lit "at ") ++ rev (lit "  ")) x []))
              (rmatch false (Star true (Class is_dot))
                      (MState (rev (lit "at ") ++ rev (lit "  ")) x []))).
  rewrite rmatch_star_class.
  destruct (star_class_head is_dot x (rev (lit "at ") ++ rev (lit "  ")) [] [] Hx I)
    as [t E].
  rewrite app_nil_r in E. rewrite E. cbn [map app].
  eexists. split; [reflexivity|].
  unfold grp, result_of, capture. cbn [groups caps rest assoc Nat.eqb length].
  now rewrite Nat.sub_0_r, firstn_all.
Qed.

(** Read by the bracket-call parser, a line in the normalized form
    [  at ] rest, with a rest of one line that does not end in [)], is a
    frame without a function name whose source is the whole rest: it is
    wrapped once more. *)
Theorem chromeLine_wraps_again :
  forall (getSource : str -> str) (z : str) (d : ascii),
    one_line (z ++ [d]) ->
    d <> ")"%char ->
    chromeLine getSource (lit "  at " ++ z ++ [d])
    = lit "  at <" ++ getSource (z ++ [d]) ++ lit ">".
Proof.
  intros g z d Hx Hd. unfold chromeLine.
  replace (lit "  at " ++ z ++ [d]) with ((lit "  at " ++ z) ++ [d])
    by now rewrite <- app_assoc.
  rewrite (exec_chrome_call_none _ d Hd). rewrite <- app_assoc.
  destruct (exec_chrome_plain_formatted (z ++ [d]) Hx) as [m [-> Hm]].
  unfold formatLine. cbn [func source truthy negb]. now rewrite Hm.
Qed.

Lemma chromeLine_wraps_again_witness :
  chromeLine (fun x => x) (lit "  at foo  <bar.js:1:2>")
  = lit "  at <foo  <bar.js:1:2>>".
Proof.
  exact (chromeLine_wraps_again (fun x => x) (lit "foo  <bar.js:1:2") ">"%char
           eq_refl ltac:(discriminate)).
Defined.

(* ================================================================= *)
(** ** The empty diff *)

Lemma array_slice_short {A} (l : list A) :
  length l <= 6 -> array_slice 5 (-1) l = [].
Proof.
  intros H. unfold array_slice, clamp_index.
  replace (Z.to_nat _) with 0; [reflexivity|].
  destruct (5 <? 0)%Z eqn:E1; [discriminate|].
  destruct (-1 <? 0)%Z eqn:E2; [|discriminate]. lia.
Qed.

(** When the patch has no line beyond the four header lines, one range
    line and the part after the last line break, the diff is the empty
    string, and [format] adds no diff section. *)
Theorem createDiff_empty :
  forall toJSON createPatch (a_ x_ : value),
    length (split LF (createPatch [] (toJSON a_ ++ newline)
                                  (toJSON x_ ++ newline) [] [])) <= 6 ->
    createDiff toJSON createPatch a_ x_ = []
    /\ forall e, a_ = actual e -> x_ = expected e ->
                 diffSection toJSON createPatch e = [].
Proof.
  intros toJSON createPatch a x H.
  assert (E : createDiff toJSON createPatch a x = []).
  { unfold createDiff, renderPatch. now rewrite array_slice_short. }
  split; [exact E|]. intros e -> ->. unfold diffSection.
  destruct (wantsDiff e); [|reflexivity]. now rewrite E.
Qed.

Lemma createDiff_empty_witness :
  createDiff (fun _ => lit "{}") (fun _ _ _ _ _ => lit "Index: ") VNull VNull = [].
Proof.
  exact (proj1 (createDiff_empty (fun _ => lit "{}") (fun _ _ _ _ _ => lit "Index: ")
                  VNull VNull ltac:(simpl; lia))).
Defined.

(* ================================================================= *)
(** ** White space at the end of a stack *)

Lemma rtrim_app_space : forall s w,
  forallb is_space w = true -> rtrim (s ++ w) = rtrim s.
Proof.
  induction s as [|c s IH]; intros w Hw.
  - cbn [app]. destruct w as [|d w]; [reflexivity|]. cbn [rtrim]. now rewrite Hw.
  - cbn [app rtrim]. rewrite IH by exact Hw.
    cbn [forallb]. now rewrite forallb_app, Hw, andb_true_r.
Qed.

(** White space after the last frame (blanks, tabs, line breaks) changes
    nothing: a stack and the same stack followed by white space are
    normalized to the same text. *)
Theorem normalizeStackTrace_trailing_space :
  forall (stack w : str) (filterStack : bool) (getSource : str -> str),
    forallb is_space w = true ->
    normalizeStackTrace (stack ++ w) filterStack getSource
    = normalizeStackTrace stack filterStack getSource.
Proof.
  intros stack w f g Hw.
  assert (E : stackLinesOf (stack ++ w) = stackLinesOf stack).
  { unfold stackLinesOf. now rewrite !replace_trailing_space, rtrim_app_space. }
  unfold normalizeStackTrace, normalizedLines, contentLines, firstLineOf.
  now rewrite E.
Qed.

Lemma normalizeStackTrace_trailing_space_witness :
  normalizeStackTrace (lit "    at foo (a.js:1:1)" ++ lit " 

") false (fun x => x)
  = normalizeStackTrace (lit "    at foo (a.js:1:1)") false (fun x => x).
Proof.
  exact (normalizeStackTrace_trailing_space (lit "    at foo (a.js:1:1)") (lit " 

") false (fun x => x) eq_refl).
Defined.

(* ================================================================= *)
(** ** What the deduplication removes *)

(** The deduplication only ever cuts a prefix off the stack, and this
    prefix is nothing, the header or the message as [indexOf] and [String]
    read it; an absent message is read as the text [undefined], so a stack
    that begins with this word loses it when the error has no message. *)
Theorem dedupe_cuts_prefix :
  forall (e : InternError) (s : str),
    (exists p, s = p ++ dedupe e s
               /\ (p = [] \/ p = header e \/ p = String_ (message e)))
    /\ (prefixb (header e) s = false ->
        prefixb (String_ (message e)) s = false ->
        dedupe e s = s)
    /\ (forall r, message e = None ->
                  prefixb (header e) (lit "undefined" ++ r) = false ->
                  dedupe e (lit "undefined" ++ r) = r).
Proof.
  intros e s. split; [|split].
  - unfold dedupe. rewrite !indexOf_zero.
    destruct (prefixb (header e) s) eqn:H1.
    + apply prefixb_true in H1 as [r ->]. exists (header e).
      unfold str_slice. rewrite skipn_app_exact. auto.
    + destruct (prefixb (String_ (message e)) s) eqn:H2.
      * apply prefixb_true in H2 as [r ->]. exists (String_ (message e)).
        unfold str_slice. rewrite skipn_app_exact. auto.
      * exists []. auto.
  - intros H1 H2. unfold dedupe. now rewrite !indexOf_zero, H1, H2.
  - intros r Hm H1. unfold dedupe. rewrite !indexOf_zero, H1, Hm.
    cbn [String_]. rewrite prefixb_app. unfold str_slice.
    apply skipn_app_exact.
Qed.

(* ================================================================= *)
(** ** Splitting and joining again *)

Lemma join_split (sep : ascii) : forall s, join [sep] (split sep s) = s.
Proof.
  induction s as [|c s IH]; [reflexivity|].
  cbn [split]. destruct (Ascii.eqb c sep) eqn:E.
  - apply Ascii.eqb_eq in E. subst c.
    pose proof (split_nonempty sep s) as Hne.
    destruct (split sep s) as [|l ls]; [congruence|].
    change (join [sep] ([] :: l :: ls)) with ([] ++ [sep] ++ join [sep] (l :: ls)).
    now rewrite IH.
  - pose proof (split_nonempty sep s) as Hne.
    destruct (split sep s) as [|l ls]; [congruence|].
    destruct ls as [|l2 ls].
    + cbn [join] in *. now rewrite IH.
    + change (join [sep] ((c :: l) :: l2 :: ls))
        with (c :: join [sep] (l :: l2 :: ls)).
      now rewrite IH.
Qed.

(** Splitting a message into lines and joining them again gives the
    message back, so the empty string as [space] leaves every message as it
    is: [format] with [space: ''] returns what it returns without [space]. *)
Theorem format_empty_space :
  forall toJSON createPatch String_of_error self (error : ErrorLike) (message : str),
    join newline (split LF message) = message
    /\ indent (Some []) message = message
    /\ format toJSON createPatch String_of_error self error (Some {| space := Some [] |})
       = format toJSON createPatch String_of_error self error None.
Proof.
  intros toJSON createPatch Soe self error message.
  assert (H : forall m, indent (Some []) m = m).
  { intros m. unfold indent. cbn [app]. rewrite map_id. apply join_split. }
  split; [apply join_split|]. split; [apply H|].
  unfold format. cbn [spaceOf space]. rewrite H. reflexivity.
Qed.

(* ================================================================= *)
(** ** A stack with noise only *)

Lemma filter_none {A} (f : A -> bool) : forall l,
  (forall x, In x l -> f x = false) -> filter f l = [].
Proof.
  induction l as [|x l IH]; intros H; [reflexivity|].
  cbn [filter]. rewrite (H x) by now left. apply IH. intros y Hy. apply H. now right.
Qed.

(** With the filter on, a stack without an error-name line whose parsed
    lines all match a noise pattern is filtered away entirely: the message
    then ends as for an error without a stack, with the location or, when
    there is no file name, with the line [No stack or location]. *)
Theorem format_all_noise :
  forall toJSON createPatch String_of_error self (e : InternError) (s : str)
         (options : option FormatOptions),
    stack e = Some s ->
    s <> [] ->
    filterErrorStack self = true ->
    firstLineOf (dedupe e s) = [] ->
    (forall l, In l (parseLines (contentLines (dedupe e s)) (_getSource self)) ->
               noisy l) ->
    stackOf self e = Some newline
    /\ (truthy (fileName e) = false ->
        format toJSON createPatch String_of_error self (ErrObject e) options
        = indent (spaceOf options)
                 (header e ++ diffSection toJSON createPatch e ++
                  newline ++ lit "No stack or location")).
Proof.
  intros toJSON createPatch Soe self e s options Hs Hne Hf Hfirst Hnoise.
  assert (Hst : stackOf self e = Some newline).
  { unfold stackOf. rewrite Hs. destruct s as [|c s]; [congruence|].
    cbn [truthy nonempty String_]. unfold normalizeStackTrace, normalizedLines.
    rewrite Hf, Hfirst, filter_none; [reflexivity|].
    intros l Hl. apply negb_false_iff, isNoise_noisy. now apply Hnoise. }
  split; [exact Hst|]. intros Hfile.
  rewrite format_structured.
  - rewrite Hst. unfold trailer. rewrite Hfile.
    replace (usable (Some newline)) with false by reflexivity. reflexivity.
  - unfold structured. rewrite Hs. destruct s; [congruence|]. apply orb_true_r.
Qed.

Lemma format_all_noise_witness :
  Sample.format {| filterErrorStack := true; _getSource := fun x => x |}
                (ErrObject (Sample.withStack "Error" "boom" "Error: boom
    at Module.runMain (module.js:604:10)
    at startup (bootstrap_node.js:158:16)")) None
  = lit "Error: boom
No stack or location".
Proof.
  exact (proj2 (format_all_noise Sample.toJSON Sample.createPatch
    Sample.String_of_error {| filterErrorStack := true; _getSource := fun x => x |}
    (Sample.withStack "Error" "boom" "Error: boom
    at Module.runMain (module.js:604:10)
    at startup (bootstrap_node.js:158:16)")
    (lit "Error: boom
    at Module.runMain (module.js:604:10)
    at startup (bootstrap_node.js:158:16)") None
    eq_refl ltac:(discriminate) eq_refl ltac:(vm_compute; reflexivity)
    ltac:(intros l Hl; apply isNoise_noisy; vm_compute in Hl;
          repeat (destruct Hl as [Hl|Hl]; [subst l; vm_compute; reflexivity|]);
          destruct Hl)) eq_refl).
Defined.

(* ================================================================= *)
(** ** The first match of a pattern *)

(** [st'] is the first of the ways [r] matches at [st]. *)
Definition first_match (m : bool) (r : regex) (st st' : mstate) : Prop :=
  exists t, rmatch m r st = st' :: t.

Lemma first_match_Seq m r1 r2 st st1 st2 :
  first_match m r1 st st1 -> first_match m r2 st1 st2 ->
  first_match m (Seq r1 r2) st st2.
Proof.
  intros [t1 E1] [t2 E2]. exists (t2 ++ flat_map (rmatch m r2) t1).
  cbn [rmatch]. rewrite E1. cbn [flat_map]. now rewrite E2.
Qed.

Lemma first_match_Group m n r st st' :
  first_match m r st st' -> first_match m (Group n r) st (capture n st st').
Proof.
  intros [t E]. exists (map (capture n st) t). cbn [rmatch]. now rewrite E.
Qed.

Lemma first_match_Lit m p pre s cs :
  first_match m (Lit p) (MState pre (p ++ s) cs) (MState (rev p ++ pre) s cs).
Proof.
  exists []. now rewrite rmatch_Lit, prefixb_app, skipn_app_exact.
Qed.

Lemma first_match_Chr m c pre s cs :
  first_match m (Chr c) (MState pre (c :: s) cs) (MState (c :: pre) s cs).
Proof.
  exists []. unfold Chr. rewrite rmatch_Class_cons. unfold is_char.
  now rewrite Ascii.eqb_refl.
Qed.

Lemma first_match_Star m p l pre tail cs :
  forallb p l = true ->
  match tail with [] => True | c :: _ => p c = false end ->
  first_match m (Star true (Class p)) (MState pre (l ++ tail) cs)
              (MState (rev l ++ pre) tail cs).
Proof.
  intros Hl Ht. destruct (star_class_head p l pre tail cs Hl Ht) as [t E].
  exists t. now rewrite rmatch_star_class.
Qed.

Lemma first_match_Star_end m p l pre cs :
  forallb p l = true ->
  first_match m (Star true (Class p)) (MState pre l cs) (MState (rev l ++ pre) [] cs).
Proof.
  intros Hl. pose proof (first_match_Star m p l pre [] cs Hl I) as H.
  now rewrite app_nil_r in H.
Qed.

Lemma first_match_Plus m p c l pre tail cs :
  p c = true -> forallb p l = true ->
  match tail with [] => True | d :: _ => p d = false end ->
  first_match m (Plus true (Class p)) (MState pre (c :: l ++ tail) cs)
              (MState (rev (c :: l) ++ pre) tail cs).
Proof.
  intros Hc Hl Ht. unfold Plus. eapply first_match_Seq.
  - exists []. now rewrite rmatch_Class_cons, Hc.
  - cbn [rev]. rewrite <- app_assoc. now apply first_match_Star.
Qed.

Lemma first_match_Eol_end m pre cs :
  first_match m Eol (MState pre [] cs) (MState pre [] cs).
Proof. now exists []. Qed.

(** The first match of a pattern that begins with [^], without the [m]
    flag, is the match [exec] returns. *)
Lemma exec_first_match (r : regex) (s : str) (st' : mstate) :
  first_match false r (MState [] s []) st' ->
  exec false (Seq Bol r) s = Some (result_of [] s st').
Proof. intros [t E]. now rewrite exec_Bol, E. Qed.

Lemma capture_app (n : nat) pre x y cs pre' cs' :
  capture n (MState pre (x ++ y) cs) (MState pre' y cs')
  = MState pre' y ((n, x) :: cs').
Proof. unfold capture. cbn [rest consumed caps]. now rewrite firstn_app_exact. Qed.

Lemma capture_all (n : nat) pre x cs pre' cs' :
  capture n (MState pre x cs) (MState pre' [] cs') = MState pre' [] ((n, x) :: cs').
Proof.
  unfold capture. cbn [rest consumed caps length]. now rewrite Nat.sub_0_r, firstn_all.
Qed.

(** Nothing matches when the literal after the starred class does not
    stand right after the run of the class. *)
Lemma star_then_Lit_none (p : ascii -> bool) (c : ascii) (w : str) (r : regex) :
  p c = false ->
  forall s pre cs,
    prefixb (c :: w) (drop_while p s) = false ->
    flat_map (rmatch false (Seq (Lit (c :: w)) r)) (star_class true p pre s cs) = [].
Proof.
  intros Hc. induction s as [|d s IH]; intros pre cs H.
  - cbn [star_class flat_map]. rewrite rmatch_Seq_Lit. cbn [drop_while] in H.
    cbn [rest]. now rewrite H.
  - cbn [star_class drop_while] in *. destruct (p d) eqn:Hd.
    + rewrite flat_map_app, IH by exact H. cbn [flat_map app].
      rewrite rmatch_Seq_Lit. cbn [prefixb].
      destruct (Ascii.eqb c d) eqn:E; [|reflexivity].
      apply Ascii.eqb_eq in E. congruence.
    + cbn [flat_map]. rewrite rmatch_Seq_Lit. now rewrite H.
Qed.

Lemma exec_at_none (r : regex) (l : str) :
  test false re_at l = false ->
  exec false (Seq Bol (Seq (Star true (Class is_space)) (Seq (Lit (lit "at ")) r))) l
  = None.
Proof.
  intros H. rewrite test_at in H. rewrite exec_Bol.
  change (rmatch false (Seq (Star true (Class is_space)) (Seq (Lit (lit "at ")) r))
                 (MState [] l []))
    with (flat_map (rmatch false (Seq (Lit (lit "at ")) r))
                   (rmatch false (Star true (Class is_space)) (MState [] l []))).
  rewrite rmatch_star_class.
  pose proof (star_then_Lit_none is_space "a" (lit "t ") r eq_refl l [] [] H) as E.
  change ("a"%char :: lit "t ") with (lit "at ") in E. now rewrite E.
Qed.

(* ================================================================= *)
(** ** The bracket-call parser *)

(** A line that does not begin, after white space, with [at ] is returned
    by the bracket-call parser as it is. *)
Theorem chromeLine_other_line :
  forall (getSource : str -> str) (l : str),
    prefixb (lit "at ") (drop_while is_space l) = false ->
    chromeLine getSource l = l.
Proof.
  intros g l H. rewrite <- test_at in H. unfold chromeLine.
  unfold re_chrome_call, re_chrome_plain.
  now rewrite !exec_at_none by exact H.
Qed.

Lemma chromeLine_other_line_witness :
  chromeLine (fun x => x) (lit "bar@b.js:2:2") = lit "bar@b.js:2:2".
Proof.
  exact (chromeLine_other_line (fun x => x) (lit "bar@b.js:2:2") eq_refl).
Defined.

Lemma exec_chrome_plain_frame (ws x : str) :
  forallb is_space ws = true ->
  one_line x ->
  exists m, exec false re_chrome_plain (ws ++ lit "at " ++ x) = Some m
            /\ grp 1 m = x.
Proof.
  intros Hws Hx. unfold re_chrome_plain.
  eexists. split.
  - apply exec_first_match. eapply first_match_Seq.
    + apply first_match_Star; [exact Hws | reflexivity].
    + eapply first_match_Seq; [apply first_match_Lit|].
      apply first_match_Group. apply first_match_Star_end. exact Hx.
  - unfold grp, result_of. cbn [groups]. rewrite capture_all.
    cbn [caps assoc Nat.eqb]. reflexivity.
Qed.

(** A line [at ] source, with any white space in front, a source of one
    line and no [)] at the end, is a frame without a function name: the
    bracket-call parser returns [  at <] resolved source [>]. *)
Theorem chromeLine_plain_frame :
  forall (getSource : str -> str) (ws z : str) (d : ascii),
    forallb is_space ws = true ->
    one_line (z ++ [d]) ->
    d <> ")"%char ->
    chromeLine getSource (ws ++ lit "at " ++ z ++ [d])
    = lit "  at <" ++ getSource (z ++ [d]) ++ lit ">".
Proof.
  intros g ws z d Hws Hx Hd. unfold chromeLine.
  replace (ws ++ lit "at " ++ z ++ [d]) with ((ws ++ lit "at " ++ z) ++ [d])
    by now rewrite <- !app_assoc.
  rewrite (exec_chrome_call_none _ d Hd).
  replace ((ws ++ lit "at " ++ z) ++ [d]) with (ws ++ lit "at " ++ z ++ [d])
    by now rewrite <- !app_assoc.
  destruct (exec_chrome_plain_frame ws (z ++ [d]) Hws Hx) as [m [-> Hm]].
  unfold formatLine. cbn [func source truthy negb]. now rewrite Hm.
Qed.

Lemma chromeLine_plain_frame_witness :
  chromeLine (fun x => x) (lit "    at http://localhost/a.js:10:3")
  = lit "  at <http://localhost/a.js:10:3>".
Proof.
  exact (chromeLine_plain_frame (fun x => x) (lit "    ")
           (lit "http://localhost/a.js:10:") "3"%char
           eq_refl eq_refl ltac:(discriminate)).
Defined.

(* ================================================================= *)
(** ** The at-sign parser *)

Lemma first_match_Group_app m n r pre x y cs pre' cs' :
  first_match m r (MState pre (x ++ y) cs) (MState pre' y cs') ->
  first_match m (Group n r) (MState pre (x ++ y) cs) (MState pre' y ((n, x) :: cs')).
Proof.
  intros H. apply (first_match_Group m n) in H. now rewrite capture_app in H.
Qed.

Lemma first_match_Group_all m n r pre x cs pre' cs' :
  first_match m r (MState pre x cs) (MState pre' [] cs') ->
  first_match m (Group n r) (MState pre x cs) (MState pre' [] ((n, x) :: cs')).
Proof.
  intros H. apply (first_match_Group m n) in H. now rewrite capture_all in H.
Qed.

Definition not_at (c : ascii) : bool := negb (is_char "@" c).

(** A line function [@] source, with a function name that is not empty and
    has no [@], and a source of one line, is a frame with a function name:
    the at-sign parser returns [  at ] function [  <] resolved source [>]. *)
Theorem safariLine_call_frame :
  forall (getSource : str -> str) (c : ascii) (f s : str),
    forallb not_at (c :: f) = true ->
    one_line s ->
    safariLine getSource ((c :: f) ++ "@"%char :: s)
    = lit "  at " ++ (c :: f) ++ lit "  <" ++ getSource s ++ lit ">".
Proof.
  intros g c f s Hf Hs. unfold safariLine.
  cbn [forallb] in Hf. apply andb_true_iff in Hf as [Hc Hf].
  assert (E : exec false re_safari_call ((c :: f) ++ "@"%char :: s)
              = Some (result_of [] ((c :: f) ++ "@"%char :: s)
                        (MState (rev s ++ "@"%char :: rev (c :: f) ++ []) []
                                [(2, s); (1, c :: f)]))).
  { unfold re_safari_call. apply exec_first_match. eapply first_match_Seq.
    - apply first_match_Group_app. unfold NotChr.
      apply (first_match_Plus false not_at c f [] ("@"%char :: s) [] Hc Hf).
      reflexivity.
    - eapply first_match_Seq; [apply first_match_Chr|].
      apply first_match_Group_all. now apply first_match_Star_end. }
  rewrite E. unfold formatLine, grp, result_of.
  cbn [groups caps assoc Nat.eqb func source truthy nonempty negb String_].
  reflexivity.
Qed.

Lemma safariLine_call_frame_witness :
  safariLine (fun x => x) (lit "foo@http://localhost/a.js:10:3")
  = lit "  at foo  <http://localhost/a.js:10:3>".
Proof.
  exact (safariLine_call_frame (fun x => x) "f"%char (lit "oo")
           (lit "http://localhost/a.js:10:3") eq_refl eq_refl).
Defined.

(** A pattern that cannot match without passing the character [c]. *)
Inductive needs_char (c : ascii) : regex -> Prop :=
| needs_here (r : regex) : needs_char c (Seq (Chr c) r)
| needs_later (r1 r2 : regex) : needs_char c r2 -> needs_char c (Seq r1 r2).

Lemma needs_char_match (m : bool) (c : ascii) (r : regex) :
  needs_char c r ->
  forall st st', In st' (rmatch m r st) -> In c (rest st).
Proof.
  induction 1 as [r|r1 r2 _ IH]; intros st st' Hin; cbn [rmatch] in Hin;
    apply in_flat_map in Hin as [mid [H1 H2]].
  - destruct st as [pre [|d s] cs]; [destruct H1|].
    unfold Chr in H1. rewrite rmatch_Class_cons in H1. unfold is_char in H1.
    destruct (Ascii.eqb d c) eqn:E; [|destruct H1].
    apply Ascii.eqb_eq in E. subst. now left.
  - destruct (rmatch_moves m r1 st mid H1) as [[y [Hy _]] _].
    rewrite Hy. apply in_or_app. right. eapply IH; eauto.
Qed.

Lemma search_needs_char (m : bool) (c : ascii) (r : regex) :
  needs_char c r ->
  forall s pre, ~ In c s -> search m r pre s = None.
Proof.
  intros Hr. induction s as [|d s IH]; intros pre Hs; cbn [search].
  - destruct (rmatch m r (MState pre [] [])) as [|st' t] eqn:E; [reflexivity|].
    exfalso. apply Hs. apply (needs_char_match m c r Hr (MState pre [] []) st').
    rewrite E. now left.
  - destruct (rmatch m r (MState pre (d :: s) [])) as [|st' t] eqn:E.
    + apply IH. intros H. apply Hs. now right.
    + exfalso. apply Hs.
      apply (needs_char_match m c r Hr (MState pre (d :: s) []) st').
      rewrite E. now left.
Qed.

(** Without an [@] in the line there is no call frame of the at-sign
    dialect. *)
Lemma exec_safari_call_none (l : str) :
  ~ In "@"%char l -> exec false re_safari_call l = None.
Proof.
  intros H. unfold exec. apply (search_needs_char false "@"); [|exact H].
  unfold re_safari_call. repeat (first [apply needs_here | apply needs_later]).
Qed.

(** The line begins with word characters followed by [://]. *)
Definition url_like (l : str) : bool :=
  match l with
  | c :: _ => is_word c
  | [] => false
  end && prefixb (lit "://") (drop_while is_word l).

Lemma exec_safari_url_none (l : str) :
  url_like l = false -> exec false re_safari_url l = None.
Proof.
  intros H. unfold re_safari_url. rewrite exec_Bol.
  change (rmatch false
            (Group 1 (Seq (Plus true (Class is_word))
                          (Seq (Lit (lit "://")) (Star true (Class is_dot)))))
            (MState [] l []))
    with (map (capture 1 (MState [] l []))
              (flat_map (rmatch false (Seq (Lit (lit "://")) (Star true (Class is_dot))))
                 (flat_map (rmatch false (Star true (Class is_word)))
                           (rmatch false (Class is_word) (MState [] l []))))).
  destruct l as [|c l]; [reflexivity|].
  rewrite rmatch_Class_cons. unfold url_like in H. cbn [drop_while] in H.
  destruct (is_word c); [|reflexivity]. cbn [andb] in H.
  cbn [flat_map]. rewrite app_nil_r, rmatch_star_class.
  pose proof (star_then_Lit_none is_word ":" (lit "//") (Star true (Class is_dot))
                                 eq_refl l [c] [] H) as E.
  change (":"%char :: lit "//") with (lit "://") in E. now rewrite E.
Qed.

(** A line without [@] that does not begin with word characters followed
    by [://] is returned by the at-sign parser as it is. *)
Theorem safariLine_other_line :
  forall (getSource : str -> str) (l : str),
    ~ In "@"%char l ->
    url_like l = false ->
    safariLine getSource l = l.
Proof.
  intros g l H1 H2. unfold safariLine.
  now rewrite exec_safari_call_none, exec_safari_url_none.
Qed.

Lemma safariLine_other_line_witness :
  safariLine (fun x => x) (lit "    at foo (a.js:1:1)") = lit "    at foo (a.js:1:1)".
Proof.
  exact (safariLine_other_line (fun x => x) (lit "    at foo (a.js:1:1)")
           ltac:(intros H; simpl in H; intuition discriminate) eq_refl).
Defined.

(** A line that begins with word characters followed by [://], has no [@]
    and is one line, is a frame without a function name whose source is the
    whole line: the at-sign parser returns [  at <] resolved line [>]. *)
Theorem safariLine_url_frame :
  forall (getSource : str -> str) (c : ascii) (w r : str),
    forallb is_word (c :: w) = true ->
    one_line r ->
    ~ In "@"%char ((c :: w) ++ lit "://" ++ r) ->
    safariLine getSource ((c :: w) ++ lit "://" ++ r)
    = lit "  at <" ++ getSource ((c :: w) ++ lit "://" ++ r) ++ lit ">".
Proof.
  intros g c w r Hw Hr Hat. unfold safariLine.
  rewrite exec_safari_call_none by exact Hat.
  cbn [forallb] in Hw. apply andb_true_iff in Hw as [Hc Hw].
  assert (E : exec false re_safari_url ((c :: w) ++ lit "://" ++ r)
              = Some (result_of [] ((c :: w) ++ lit "://" ++ r)
                        (MState (rev r ++ rev (lit "://") ++ rev (c :: w) ++ []) []
                                [(1, (c :: w) ++ lit "://" ++ r)]))).
  { unfold re_safari_url. apply exec_first_match.
    apply first_match_Group_all. eapply first_match_Seq.
    - apply (first_match_Plus false is_word c w [] (lit "://" ++ r) [] Hc Hw).
      reflexivity.
    - eapply first_match_Seq; [apply first_match_Lit|].
      now apply first_match_Star_end. }
  rewrite E. unfold formatLine, grp, result_of.
  cbn [groups caps assoc Nat.eqb func source truthy negb]. reflexivity.
Qed.

Lemma safariLine_url_frame_witness :
  safariLine (fun x => x) (lit "http://localhost/a.js:10:3")
  = lit "  at <http://localhost/a.js:10:3>".
Proof.
  exact (safariLine_url_frame (fun x => x) "h"%char (lit "ttp")
           (lit "localhost/a.js:10:3") eq_refl eq_refl
           ltac:(intros H; simpl in H; intuition discriminate)).
Defined.

(* ================================================================= *)
(** ** A call frame of the bracket-call dialect *)

Lemma flat_map_map {A B C} (f : B -> list C) (g : A -> B) : forall l,
  flat_map f (map g l) = flat_map (fun x => f (g x)) l.
Proof.
  induction l as [|x l IH]; [reflexivity|]. cbn [map flat_map]. now rewrite IH.
Qed.

Lemma star_class_lazy_head (p : ascii -> bool) pre s cs :
  exists t, star_class false p pre s cs = MState pre s cs :: t.
Proof.
  destruct s as [|c s]; cbn [star_class]; [now exists []|].
  destruct (p c); eexists; reflexivity.
Qed.

(** A lazy run passes the positions at which the rest of the pattern fails. *)
Lemma lazy_scan (p : ascii -> bool) (k : mstate -> list mstate) (y : str) cs :
  forall x pre,
    forallb p x = true ->
    (forall x1 x2, x = x1 ++ x2 -> x2 <> [] ->
                   k (MState (rev x1 ++ pre) (x2 ++ y) cs) = []) ->
    flat_map k (star_class false p pre (x ++ y) cs)
    = flat_map k (star_class false p (rev x ++ pre) y cs).
Proof.
  induction x as [|d x IH]; intros pre Hx Hk; [reflexivity|].
  cbn [forallb] in Hx. apply andb_true_iff in Hx as [Hd Hx].
  cbn [app star_class]. rewrite Hd. cbn [flat_map].
  pose proof (Hk [] (d :: x) eq_refl ltac:(discriminate)) as H0.
  cbn [rev app] in H0. rewrite H0. cbn [app].
  rewrite IH; [cbn [rev]; now rewrite <- app_assoc | exact Hx |].
  intros x1 x2 E Hne. specialize (Hk (d :: x1) x2).
  cbn [rev] in Hk. rewrite <- app_assoc in Hk. apply Hk; [|exact Hne].
  now rewrite E.
Qed.

(** The first match of a lazy group followed by [k]: the shortest run after
    which [k] matches. *)
Lemma first_match_lazy_group (m : bool) (n : nat) (p : ascii -> bool) (k : regex)
      (c : ascii) (x y : str) pre cs st_final :
  forallb p (c :: x) = true ->
  (forall x1 x2, x = x1 ++ x2 -> x2 <> [] ->
     rmatch m k (MState (rev (c :: x1) ++ pre) (x2 ++ y) ((n, c :: x1) :: cs)) = []) ->
  first_match m k (MState (rev (c :: x) ++ pre) y ((n, c :: x) :: cs)) st_final ->
  first_match m (Seq (Group n (Plus false (Class p))) k)
              (MState pre ((c :: x) ++ y) cs) st_final.
Proof.
  intros Hp Hfail [t Hk]. unfold first_match.
  cbn [forallb] in Hp. apply andb_true_iff in Hp as [Hc Hx].
  set (st0 := MState pre ((c :: x) ++ y) cs).
  change (rmatch m (Seq (Group n (Plus false (Class p))) k) st0)
    with (flat_map (rmatch m k)
            (map (capture n st0)
                 (flat_map (rmatch m (Star false (Class p)))
                           (rmatch m (Class p) st0)))).
  unfold st0 at 2. cbn [app]. rewrite rmatch_Class_cons, Hc.
  cbn [flat_map]. rewrite app_nil_r, rmatch_star_class, flat_map_map.
  rewrite (lazy_scan p (fun st => rmatch m k (capture n st0 st)) y cs x (c :: pre) Hx).
  - destruct (star_class_lazy_head p (rev x ++ c :: pre) y cs) as [t2 E].
    rewrite E. cbn [flat_map]. unfold st0. rewrite capture_app.
    cbn [rev] in Hk. rewrite <- app_assoc in Hk. cbn [app] in Hk.
    rewrite Hk. eexists. reflexivity.
  - intros x1 x2 E Hne. unfold st0. rewrite E.
    replace ((c :: x1 ++ x2) ++ y) with ((c :: x1) ++ (x2 ++ y))
      by (cbn [app]; now rewrite <- app_assoc).
    rewrite capture_app. specialize (Hfail x1 x2 E Hne).
    cbn [rev] in Hfail. rewrite <- app_assoc in Hfail. exact Hfail.
Qed.

Lemma infix_suffix (v x1 x2 : str) : infix v x2 -> infix v (x1 ++ x2).
Proof. apply infix_app_r. Qed.

Lemma no_paren_prefix (x t : str) :
  x <> [] -> ~ infix (lit " (") x ->
  prefixb (lit " (") (x ++ lit " (" ++ t) = false.
Proof.
  intros Hne Hx. destruct x as [|a [|b x]]; [congruence| |].
  - cbn [app prefixb lit list_ascii_of_string].
    destruct (Ascii.eqb " " a); reflexivity.
  - cbn [app prefixb lit list_ascii_of_string].
    destruct (Ascii.eqb " " a) eqn:Ea; [|reflexivity].
    destruct (Ascii.eqb "(" b) eqn:Eb; [|reflexivity].
    apply Ascii.eqb_eq in Ea, Eb. subst. exfalso. apply Hx.
    now exists [], x.
Qed.

Definition not_close (c : ascii) : bool := negb (is_char ")" c).

Lemma exec_chrome_call_frame (ws : str) (c : ascii) (f : str) (s0 : ascii) (s : str) :
  forallb is_space ws = true ->
  one_line (c :: f) ->
  ~ infix (lit " (") (c :: f) ->
  forallb not_close (s0 :: s) = true ->
  exists m,
    exec false re_chrome_call
         (ws ++ lit "at " ++ (c :: f) ++ lit " (" ++ (s0 :: s) ++ lit ")") = Some m
    /\ grp 1 m = c :: f /\ grp 2 m = s0 :: s.
Proof.
  intros Hws Hf Hparen Hs.
  cbn [forallb] in Hs. apply andb_true_iff in Hs as [Hs0 Hs].
  eexists. split.
  - unfold re_chrome_call. apply exec_first_match. eapply first_match_Seq.
    + apply first_match_Star; [exact Hws | reflexivity].
    + eapply first_match_Seq; [apply first_match_Lit|].
      apply (first_match_lazy_group false 1 is_dot).
      * exact Hf.
      * intros x1 x2 E Hne. rewrite rmatch_Seq_Lit.
        rewrite no_paren_prefix; [reflexivity | exact Hne |].
        intros Hi. apply Hparen. rewrite E.
        apply (infix_app_r _ _ (c :: x1)) in Hi. exact Hi.
      * eapply first_match_Seq; [apply first_match_Lit|].
        eapply first_match_Seq.
        -- apply first_match_Group_app. unfold NotChr.
           apply (first_match_Plus false not_close s0 s _ (lit ")") _ Hs0 Hs).
           reflexivity.
        -- eapply first_match_Seq; [apply first_match_Chr|].
           apply first_match_Eol_end.
  - unfold grp, result_of. cbn [groups caps assoc Nat.eqb]. split; reflexivity.
Qed.

(** A line [at ] function [ (] source [)], with any white space in front,
    a function name of one line without [ (] in it and a source without
    [)], is a frame with a function name: the bracket-call parser returns
    [  at ] function [  <] resolved source [>]. *)
Theorem chromeLine_call_frame :
  forall (getSource : str -> str) (ws : str) (c : ascii) (f : str)
         (s0 : ascii) (s : str),
    forallb is_space ws = true ->
    one_line (c :: f) ->
    ~ infix (lit " (") (c :: f) ->
    forallb not_close (s0 :: s) = true ->
    chromeLine getSource
               (ws ++ lit "at " ++ (c :: f) ++ lit " (" ++ (s0 :: s) ++ lit ")")
    = lit "  at " ++ (c :: f) ++ lit "  <" ++ getSource (s0 :: s) ++ lit ">".
Proof.
  intros g ws c f s0 s Hws Hf Hparen Hs. unfold chromeLine.
  destruct (exec_chrome_call_frame ws c f s0 s Hws Hf Hparen Hs)
    as [m [-> [H1 H2]]].
  unfold formatLine. cbn [func source]. rewrite H1, H2. reflexivity.
Qed.

Lemma chromeLine_call_frame_witness :
  chromeLine (fun x => x) (lit "    at Test.run (lib/Test.js:211:17)")
  = lit "  at Test.run  <lib/Test.js:211:17>".
Proof.
  exact (chromeLine_call_frame (fun x => x) (lit "    ") "T"%char (lit "est.run")
           "l"%char (lit "ib/Test.js:211:17") eq_refl eq_refl
           ltac:(intros H; apply (test_Lit false) in H; vm_compute in H; discriminate)
           eq_refl).
Defined.

(* ================================================================= *)
(** ** The error-name line *)

(** After a run of [p] characters comes the text [q]. *)
Fixpoint run_then (p : ascii -> bool) (q s : str) : bool :=
  prefixb q s ||
  match s with
  | c :: s' => p c && run_then p q s'
  | [] => false
  end.

Lemma star_Lit_run (m : bool) (p : ascii -> bool) (q : str) : forall s pre cs,
  nonempty_list (flat_map (rmatch m (Lit q)) (star_class true p pre s cs))
  = run_then p q s.
Proof.
  induction s as [|c s IH]; intros pre cs.
  - cbn [star_class flat_map run_then]. rewrite rmatch_Lit, app_nil_r, orb_false_r.
    now destruct (prefixb q []).
  - cbn [star_class run_then]. destruct (p c).
    + rewrite flat_map_app, nonempty_list_app, IH. cbn [flat_map].
      rewrite rmatch_Lit, app_nil_r. cbn [andb]. rewrite orb_comm.
      now destruct (prefixb q (c :: s)).
    + cbn [flat_map andb]. rewrite rmatch_Lit, app_nil_r, orb_false_r.
      now destruct (prefixb q (c :: s)).
Qed.

Lemma run_then_prefix (p : ascii -> bool) (q s : str) :
  prefixb q s = true -> run_then p q s = true.
Proof. intros H. destruct s; cbn [run_then]; now rewrite H. Qed.

Lemma run_then_spec (p : ascii -> bool) (q : str) : forall s,
  run_then p q s = true <->
  exists w r, s = w ++ q ++ r /\ forallb p w = true.
Proof.
  intros s. split.
  - induction s as [|c s IH]; cbn [run_then]; intros H.
    + rewrite orb_false_r in H. apply prefixb_true in H as [r ->].
      now exists [], r.
    + apply orb_true_iff in H as [H|H].
      * apply prefixb_true in H as [r ->]. now exists [], r.
      * apply andb_true_iff in H as [Hc H].
        destruct (IH H) as [w [r [-> Hw]]]. exists (c :: w), r.
        split; [reflexivity|]. cbn [forallb]. now rewrite Hc.
  - intros [w [r [-> Hw]]]. induction w as [|c w IH].
    + cbn [app]. apply run_then_prefix, prefixb_app.
    + cbn [app run_then]. cbn [forallb] in Hw. apply andb_true_iff in Hw as [Hc Hw].
      rewrite Hc, (IH Hw). apply orb_true_r.
Qed.

(** The lines the normalizer takes for the name of the error: [Error: ]
    at the start, or before it an upper-case letter and one or more word
    characters, as in [TypeError: ] or [AssertionError: ]. *)
Definition error_name_line (l : str) : Prop :=
  (exists r, l = lit "Error: " ++ r)
  \/ (exists u w r, l = u :: w ++ lit "Error: " ++ r
                    /\ is_upper u = true /\ w <> [] /\ forallb is_word w = true).

Lemma test_error_name (l : str) :
  test false re_error_name l = true <-> error_name_line l.
Proof.
  unfold re_error_name. rewrite test_Bol.
  change (rmatch false
            (Seq (Opt (Seq (Class is_upper) (Plus true (Class is_word))))
                 (Lit (lit "Error: "))) (MState [] l []))
    with (flat_map (rmatch false (Lit (lit "Error: ")))
            (flat_map (fun st => flat_map (rmatch false (Star true (Class is_word)))
                                          (rmatch false (Class is_word) st))
                      (rmatch false (Class is_upper) (MState [] l []))
             ++ [MState [] l []])).
  rewrite flat_map_app, nonempty_list_app. cbn [flat_map].
  rewrite (rmatch_Lit false (lit "Error: ") [] l []), app_nil_r.
  unfold error_name_line. rewrite orb_true_iff. split.
  - intros [H|H].
    + right. destruct l as [|u [|w1 l]].
      * discriminate.
      * rewrite rmatch_Class_cons in H. destruct (is_upper u); discriminate.
      * rewrite rmatch_Class_cons in H. destruct (is_upper u) eqn:Hu; [|discriminate].
        cbn [flat_map] in H. rewrite rmatch_Class_cons in H.
        destruct (is_word w1) eqn:Hw1; [|discriminate].
        cbn [flat_map app] in H. rewrite !app_nil_r, rmatch_star_class in H.
        rewrite star_Lit_run in H. apply run_then_spec in H as [w [r [-> Hw]]].
        exists u, (w1 :: w), r.
        split; [reflexivity|]. split; [exact Hu|]. split; [discriminate|].
        cbn [forallb]. now rewrite Hw1.
    + left. destruct (prefixb (lit "Error: ") l) eqn:E; [|discriminate].
      apply prefixb_true in E as [r ->]. now exists r.
  - intros [[r ->]|[u [w [r [-> [Hu [Hne Hw]]]]]]].
    + right. now rewrite prefixb_app.
    + left. destruct w as [|w1 w]; [congruence|].
      cbn [forallb] in Hw. apply andb_true_iff in Hw as [Hw1 Hw].
      cbn [app]. rewrite rmatch_Class_cons, Hu. cbn [flat_map].
      rewrite rmatch_Class_cons, Hw1. cbn [flat_map app].
      rewrite !app_nil_r, rmatch_star_class, star_Lit_run.
      apply run_then_spec. now exists w, r.
Qed.

(** The first line of a stack is taken for the name of the error exactly
    when it begins with [Error: ], or with an upper-case letter and one or
    more word characters before [Error: ].  Such a line is put on top of
    the output as it is: it is not parsed and not filtered, and only the
    lines after it, without their leading blank lines, go to the parser.
    Any other first line is parsed with the rest. *)
Theorem error_name_line_kept :
  forall (stack : str) (filterStack : bool) (getSource : str -> str)
         (l0 : str) (others : list str),
    stackLinesOf stack = l0 :: others ->
    let lines_of (ls : list str) :=
      let parsed := parseLines (stripBlank ls) getSource in
      if filterStack then filter (fun l => negb (isNoise l)) parsed else parsed in
    (hasErrorName (stackLinesOf stack) = true <-> error_name_line l0)
    /\ (error_name_line l0 ->
        normalizeStackTrace stack filterStack getSource
        = newline ++ l0 ++ newline ++ join newline (lines_of others))
    /\ (~ error_name_line l0 ->
        normalizeStackTrace stack filterStack getSource
        = newline ++ join newline (lines_of (l0 :: others))).
Proof.
  intros stack f g l0 others E lines_of.
  assert (Hiff : hasErrorName (stackLinesOf stack) = true <-> error_name_line l0).
  { unfold hasErrorName. rewrite E. cbn [line0 nth]. apply test_error_name. }
  split; [exact Hiff|]. split; intros H.
  - apply Hiff in H.
    unfold normalizeStackTrace, normalizedLines, contentLines, firstLineOf, lines_of.
    rewrite H, E. cbn [line0 nth tl]. now rewrite <- app_assoc.
  - assert (H' : hasErrorName (stackLinesOf stack) = false).
    { destruct (hasErrorName (stackLinesOf stack)); [|reflexivity].
      exfalso. apply H, Hiff. reflexivity. }
    unfold normalizeStackTrace, normalizedLines, contentLines, firstLineOf, lines_of.
    rewrite H', E. reflexivity.
Qed.

Lemma error_name_line_kept_witness :
  normalizeStackTrace (lit "TypeError: node_modules/x is not a function
    at foo (a.js:1:1)") true (fun x => x)
  = lit "
TypeError: node_modules/x is not a function
  at foo  <a.js:1:1>".
Proof.
  refine (eq_trans (proj1 (proj2 (error_name_line_kept
    (lit "TypeError: node_modules/x is not a function
    at foo (a.js:1:1)") true (fun x => x)
    (lit "TypeError: node_modules/x is not a function")
    [lit "    at foo (a.js:1:1)"] _)) _) _).
  - vm_compute. reflexivity.
  - right. exists "T"%char, (lit "ype"), (lit "node_modules/x is not a function").
    split; [reflexivity|]. split; [reflexivity|]. split; [discriminate | reflexivity].
  - vm_compute. reflexivity.
Defined.

(* ================================================================= *)
(** ** An error as the V8 engine raises it *)

Lemma at_line_has_text : forall l,
  prefixb (lit "at ") (drop_while is_space l) = true -> has_text l = true.
Proof.
  induction l as [|c l IH]; cbn [drop_while]; intros H; [discriminate|].
  unfold has_text. cbn [existsb]. destruct (is_space c); [|reflexivity].
  cbn [negb orb]. now apply IH.
Qed.

Lemma rtrim_all_space (s : str) : forallb is_space s = true -> rtrim s = [].
Proof. intros H. destruct s; [reflexivity|]. cbn [rtrim]. now rewrite H. Qed.

Lemma rtrim_cons (c : ascii) (s : str) :
  rtrim s <> [] -> rtrim (c :: s) = c :: rtrim s.
Proof.
  intros H. cbn [rtrim forallb].
  destruct (forallb is_space s) eqn:E.
  - exfalso. apply H. now apply rtrim_all_space.
  - now rewrite andb_false_r.
Qed.

Lemma header_app_nonempty (e : InternError) (r : str) :
  nonempty (header e ++ r) = true.
Proof.
  unfold header, or_default. destruct (name e) as [[|c s]|]; reflexivity.
Qed.

(** The stack of a V8 error begins with the header, and its frames follow
    on the next lines in the bracket-call dialect.  With the filter off the
    message shows the header once, then the diff section, then every line
    of the frames as the bracket-call parser returns it. *)
Theorem format_v8_error :
  forall toJSON createPatch String_of_error self (e : InternError) (frames : str)
         (options : option FormatOptions),
    stack e = Some (header e ++ LF :: frames) ->
    filterErrorStack self = false ->
    prefixb (lit "at ") (drop_while is_space (line0 (split LF (rtrim frames)))) = true ->
    format toJSON createPatch String_of_error self (ErrObject e) options
    = indent (spaceOf options)
             (header e ++ diffSection toJSON createPatch e ++ newline ++
              join newline (map (chromeLine (_getSource self))
                                (split LF (rtrim frames)))).
Proof.
  intros toJSON createPatch Soe self e frames options Hs Hf Hat.
  set (g := _getSource self).
  set (L := split LF (rtrim frames)) in *.
  destruct L as [|l0 t] eqn:EL; [exfalso; now apply (split_nonempty LF (rtrim frames))|].
  cbn [line0 nth] in Hat.
  pose proof (at_line_has_text l0 Hat) as Htext.
  assert (Hr : rtrim frames <> []).
  { intros E. unfold L in EL. rewrite E in EL. cbn in EL.
    injection EL as <- _. discriminate. }
  assert (Hlines : stackLinesOf (LF :: frames) = [] :: l0 :: t).
  { unfold stackLinesOf. rewrite replace_trailing_space, rtrim_cons by exact Hr.
    cbn [split]. rewrite Ascii.eqb_refl. now fold L; rewrite EL. }
  assert (Hname : hasErrorName (stackLinesOf (LF :: frames)) = false)
    by (rewrite Hlines; reflexivity).
  assert (Hcontent : contentLines (LF :: frames) = l0 :: t).
  { unfold contentLines. rewrite Hname, Hlines, stripBlank_cons.
    replace (test false re_blank []) with true by reflexivity.
    now apply stripBlank_has_text. }
  assert (Hparsed : parseLines (l0 :: t) g = map (chromeLine g) (l0 :: t)).
  { unfold parseLines, processChromeTrace. rewrite test_at. cbn [line0 nth].
    now rewrite Hat. }
  assert (Hnorm : normalizeStackTrace (LF :: frames) false g
                  = newline ++ join newline (map (chromeLine g) (l0 :: t))).
  { unfold normalizeStackTrace, normalizedLines, firstLineOf.
    now rewrite Hname, Hcontent, Hparsed. }
  assert (Hstruct : structured e = true).
  { unfold structured. rewrite Hs.
    cbn [truthy]. rewrite header_app_nonempty. apply orb_true_r. }
  rewrite format_structured by exact Hstruct.
  unfold stackOf. rewrite Hs. cbn [truthy]. rewrite header_app_nonempty.
  cbn [String_]. rewrite dedupe_header, Hf. fold g.
  unfold trailer. rewrite usable_normalized.
  - cbn [String_]. now rewrite Hnorm.
  - rewrite Hcontent, Hparsed. discriminate.
Qed.

Lemma format_v8_error_witness :
  Sample.format (new_Formatter None)
                (ErrObject (Sample.withStack "TypeError" "x is not a function"
                   "TypeError: x is not a function
    at Test.run (lib/Test.js:211:17)
    at lib/Suite.js:300:9
")) None
  = lit "TypeError: x is not a function
  at Test.run  <lib/Test.js:211:17>
  at <lib/Suite.js:300:9>".
Proof.
  refine (eq_trans (format_v8_error Sample.toJSON Sample.createPatch
    Sample.String_of_error (new_Formatter None)
    (Sample.withStack "TypeError" "x is not a function"
       "TypeError: x is not a function
    at Test.run (lib/Test.js:211:17)
    at lib/Suite.js:300:9
") (lit "    at Test.run (lib/Test.js:211:17)
    at lib/Suite.js:300:9
") None _ _ _) _).
  - reflexivity.
  - reflexivity.
  - vm_compute. reflexivity.
  - vm_compute. reflexivity.
Defined.

(* ================================================================= *)
(** ** A stack of white space *)

Lemma dedupe_suffix (e : InternError) (s : str) : exists p, s = p ++ dedupe e s.
Proof.
  unfold dedupe, str_slice.
  destruct (indexOf s (header e) =? 0)%Z;
    [|destruct (indexOf s (String_ (message e)) =? 0)%Z].
  - exists (firstn (length (header e)) s). now rewrite firstn_skipn.
  - exists (firstn (length (String_ (message e))) s). now rewrite firstn_skipn.
  - now exists [].
Qed.

Lemma normalizeStackTrace_blank (s : str) (filterStack : bool) (g : str -> str) :
  forallb is_space s = true -> normalizeStackTrace s filterStack g = newline.
Proof.
  intros H.
  assert (E : stackLinesOf s = [[]]).
  { unfold stackLinesOf. now rewrite replace_trailing_space, rtrim_all_space. }
  unfold normalizeStackTrace, normalizedLines, contentLines, firstLineOf.
  rewrite E. now destruct filterStack.
Qed.

(** A stack that is not empty but holds white space only counts as no
    stack: whatever the filter flag and the message are, the message ends
    with the location or, when there is no file name, with the line
    [No stack or location]. *)
Theorem format_blank_stack :
  forall toJSON createPatch String_of_error self (e : InternError) (s : str)
         (options : option FormatOptions),
    stack e = Some s ->
    s <> [] ->
    forallb is_space s = true ->
    stackOf self e = Some newline
    /\ (truthy (fileName e) = false ->
        format toJSON createPatch String_of_error self (ErrObject e) options
        = indent (spaceOf options)
                 (header e ++ diffSection toJSON createPatch e ++
                  newline ++ lit "No stack or location")).
Proof.
  intros toJSON createPatch Soe self e s options Hs Hne Hblank.
  assert (Hst : stackOf self e = Some newline).
  { unfold stackOf. rewrite Hs. destruct s as [|c s]; [congruence|].
    cbn [truthy nonempty String_]. rewrite normalizeStackTrace_blank; [reflexivity|].
    destruct (dedupe_suffix e (c :: s)) as [p Hp]. rewrite Hp in Hblank.
    rewrite forallb_app in Hblank. now apply andb_true_iff in Hblank as [_ H]. }
  split; [exact Hst|]. intros Hfile.
  rewrite format_structured.
  - rewrite Hst. unfold trailer. rewrite Hfile.
    replace (usable (Some newline)) with false by reflexivity. reflexivity.
  - unfold structured. rewrite Hs. destruct s; [congruence|]. apply orb_true_r.
Qed.

Lemma format_blank_stack_witness :
  Sample.format (new_Formatter None)
                (ErrObject (Sample.withStack "Error" "boom" "  
 ")) None
  = lit "Error: boom
No stack or location".
Proof.
  exact (proj2 (format_blank_stack Sample.toJSON Sample.createPatch
    Sample.String_of_error (new_Formatter None)
    (Sample.withStack "Error" "boom" "  
 ") (lit "  
 ") None eq_refl ltac:(discriminate) eq_refl) eq_refl).
Defined.

(* ================================================================= *)
(** ** An error with a stack in the at-sign dialect *)

(** A stack as Firefox and Safari give it has no copy of the message in
    front and no error-name line, and its first line is a frame of the
    at-sign dialect.  With the filter off the message is the header, the
    diff section and every line of the stack as the at-sign parser returns
    it. *)
Theorem format_at_sign_error :
  forall toJSON createPatch String_of_error self (e : InternError) (s : str)
         (options : option FormatOptions),
    stack e = Some s ->
    prefixb (header e) s = false ->
    prefixb (String_ (message e)) s = false ->
    filterErrorStack self = false ->
    hasErrorName (stackLinesOf s) = false ->
    test false re_blank (line0 (stackLinesOf s)) = false ->
    test false re_at (line0 (stackLinesOf s)) = false ->
    format toJSON createPatch String_of_error self (ErrObject e) options
    = indent (spaceOf options)
             (header e ++ diffSection toJSON createPatch e ++ newline ++
              join newline (map (safariLine (_getSource self)) (stackLinesOf s))).
Proof.
  intros toJSON createPatch Soe self e s options Hs Hh Hm Hf Hname Hblank Hat.
  set (g := _getSource self).
  destruct (plain_stack_lines s Hname Hblank)
    as [Hfirst [Hcontent [[x [t [Ex Hx]]] _]]].
  assert (Hd : dedupe e s = s).
  { unfold dedupe. now rewrite !indexOf_zero, Hh, Hm. }
  assert (Hparsed : parseLines (stackLinesOf s) g = map (safariLine g) (stackLinesOf s)).
  { unfold parseLines, processSafariTrace. now rewrite Hat. }
  assert (Hne : s <> []).
  { intros ->. rewrite test_blank in Hblank. discriminate. }
  assert (Hstruct : structured e = true).
  { unfold structured. rewrite Hs. destruct s; [congruence|]. apply orb_true_r. }
  rewrite format_structured by exact Hstruct.
  unfold stackOf. rewrite Hs. destruct s as [|c s]; [congruence|].
  cbn [truthy nonempty String_]. rewrite Hd, Hf. fold g.
  unfold trailer. rewrite usable_normalized.
  - cbn [String_]. unfold normalizeStackTrace, normalizedLines.
    now rewrite Hfirst, Hcontent, Hparsed.
  - rewrite Hcontent, Hparsed, Ex. discriminate.
Qed.

Lemma format_at_sign_error_witness :
  Sample.format (new_Formatter None)
                (ErrObject (Sample.withStack "TypeError" "x is not a function"
                   "run@http://localhost/lib/Test.js:211:17
http://localhost/lib/Suite.js:300:9
")) None
  = lit "TypeError: x is not a function
  at run  <http://localhost/lib/Test.js:211:17>
  at <http://localhost/lib/Suite.js:300:9>".
Proof.
  refine (eq_trans (format_at_sign_error Sample.toJSON Sample.createPatch
    Sample.String_of_error (new_Formatter None)
    (Sample.withStack "TypeError" "x is not a function"
       "run@http://localhost/lib/Test.js:211:17
http://localhost/lib/Suite.js:300:9
") (lit "run@http://localhost/lib/Test.js:211:17
http://localhost/lib/Suite.js:300:9
") None _ _ _ _ _ _ _) _); vm_compute; reflexivity.
Defined.

(* ================================================================= *)
(** ** Blank lines *)

Lemma blank_not_at (l : str) :
  forallb is_space l = true -> test false re_at l = false.
Proof.
  intros H. rewrite test_at.
  assert (E : drop_while is_space l = []).
  { induction l as [|c l IH]; [reflexivity|]. cbn [forallb] in H.
    apply andb_true_iff in H as [Hc H]. cbn [drop_while]. rewrite Hc. now apply IH. }
  now rewrite E.
Qed.

Lemma blank_no_at_sign (l : str) : forallb is_space l = true -> ~ In "@"%char l.
Proof.
  intros H Hin. rewrite forallb_forall in H. specialize (H _ Hin). discriminate.
Qed.

Lemma blank_not_url (l : str) : forallb is_space l = true -> url_like l = false.
Proof.
  intros H. unfold url_like. destruct l as [|c l]; [reflexivity|].
  cbn [forallb] in H. apply andb_true_iff in H as [Hc _].
  destruct (is_word c) eqn:Hw; [|reflexivity].
  exfalso. unfold is_space, is_word, in_range in *.
  destruct (nat_of_ascii c =? 32) eqn:E32; [apply Nat.eqb_eq in E32|].
  - rewrite E32 in Hw. discriminate.
  - destruct (nat_of_ascii c =? 160) eqn:E160; [apply Nat.eqb_eq in E160|].
    + rewrite E160 in Hw. discriminate.
    + rewrite !orb_false_r in Hc. apply andb_true_iff in Hc as [H1 H2].
      apply Nat.leb_le in H1, H2.
      repeat (apply orb_true_iff in Hw as [Hw|Hw]);
        try (apply andb_true_iff in Hw as [H3 H4]; apply Nat.leb_le in H3, H4; lia).
      apply Nat.eqb_eq in Hw. lia.
Qed.

(** The blank lines in front of the first line with text are dropped, and
    when every line is blank nothing is left; the blank lines after the
    first line with text stay, and both parsers return a blank line as it
    is. *)
Theorem blank_lines :
  forall (getSource : str -> str) (blanks : list str) (l : str) (others : list str),
    Forall (fun b => forallb is_space b = true) blanks ->
    stripBlank blanks = []
    /\ (forallb is_space l = false -> stripBlank (blanks ++ l :: others) = l :: others)
    /\ (forallb is_space l = true ->
        chromeLine getSource l = l /\ safariLine getSource l = l).
Proof.
  intros g blanks l others Hb. split; [|split].
  - induction Hb as [|b bs Hb _ IH]; [reflexivity|].
    now rewrite stripBlank_cons, test_blank, Hb.
  - intros Hl. induction Hb as [|b bs Hb _ IH].
    + cbn [app]. now rewrite stripBlank_cons, test_blank, Hl.
    + cbn [app]. now rewrite stripBlank_cons, test_blank, Hb.
  - intros Hl. split.
    + unfold chromeLine, re_chrome_call, re_chrome_plain.
      now rewrite !exec_at_none by now apply blank_not_at.
    + unfold safariLine.
      rewrite exec_safari_call_none by now apply blank_no_at_sign.
      now rewrite exec_safari_url_none by now apply blank_not_url.
Qed.

Lemma blank_lines_witness :
  stripBlank [lit ""; lit "  "] = []
  /\ stripBlank ([lit ""; lit "  "] ++ lit "foo" :: [lit ""; lit "bar"])
     = [lit "foo"; lit ""; lit "bar"].
Proof.
  pose proof (blank_lines (fun x => x) [lit ""; lit "  "] (lit "foo") [lit ""; lit "bar"]
                ltac:(repeat constructor)) as H.
  exact (conj (proj1 H) (proj1 (proj2 H) eq_refl)).
Defined.

(* ================================================================= *)
(** ** The noise filter *)

Lemma stripBlank_nil : stripBlank [] = [].
Proof. vm_compute. reflexivity. Qed.

Lemma Forall_stripBlank (P : str -> Prop) : forall lines,
  Forall P lines -> Forall P (stripBlank lines).
Proof.
  induction lines as [|l lines IH]; intros H.
  - rewrite stripBlank_nil. constructor.
  - rewrite stripBlank_cons. inversion H; subst.
    destruct (test false re_blank l); [now apply IH | exact H].
Qed.

Lemma contentLines_no_LF (stack : str) :
  Forall (fun l => ~ In LF l) (contentLines stack).
Proof.
  unfold contentLines. apply Forall_stripBlank.
  pose proof (split_no_sep LF
    (replace_first false re_trailing_space (fun _ => []) stack)) as H.
  fold (stackLinesOf stack) in H.
  destruct (hasErrorName (stackLinesOf stack)); [|exact H].
  destruct (stackLinesOf stack); [constructor|]. now inversion H.
Qed.

Lemma line0_no_LF (stack : str) : ~ In LF (line0 (stackLinesOf stack)).
Proof.
  pose proof (split_no_sep LF
    (replace_first false re_trailing_space (fun _ => []) stack)) as H.
  fold (stackLinesOf stack) in H.
  destruct (stackLinesOf stack) as [|l t] eqn:E.
  - exfalso. unfold stackLinesOf in E. now apply split_nonempty in E.
  - cbn [line0 nth]. now inversion H.
Qed.

Lemma split_joined (ls : list str) :
  Forall (fun l => ~ In LF l) ls ->
  split LF (join newline ls) = match ls with [] => [[]] | _ :: _ => ls end.
Proof.
  intros H. destruct ls as [|l ls]; [reflexivity|].
  now apply split_join.
Qed.

Lemma split_line_app (l s : str) :
  ~ In LF l -> split LF (l ++ newline ++ s) = l :: split LF s.
Proof. intros H. now apply split_app_sep. Qed.

Lemma split_newline_app (s : str) : split LF (newline ++ s) = [] :: split LF s.
Proof. now apply (split_line_app []). Qed.

Lemma not_noisy_nil : ~ noisy [].
Proof.
  intros H. apply isNoise_noisy in H. discriminate.
Qed.

(** The first line of a stack is kept when it is taken for the name of the
    error, also with the filter on and when it matches a noise pattern. *)
Lemma error_name_line_not_filtered :
  let stack := lit "Error: Cannot find module node_modules/foo
    at load (module.js:1:1)
    at run (node_modules/bar/index.js:2:2)" in
  let line := lit "Error: Cannot find module node_modules/foo" in
  In line (split LF stack)
  /\ isNoise line = true
  /\ normalizeStackTrace stack true (fun x => x) = lit "
Error: Cannot find module node_modules/foo
  at load  <module.js:1:1>"
  /\ In line (split LF (normalizeStackTrace stack true (fun x => x))).
Proof.
  cbv zeta. vm_compute. repeat split; auto.
Qed.

(** C6, as the code has it. The filter works on the lines the dialect
    parser returns, that is on every line after an error-name first line
    and the leading blank lines, in its parsed form.  For a source resolver
    that adds no line break, the lines of the normalized output are an
    empty first line, the error-name line when there is one, and the parsed
    lines: all of them with the flag false, and with the flag true those
    that match no noise pattern (the line mentions [internal/process/],
    [node_modules/] not followed by [digdug] or [leadfoot],
    [Module.runMain] or [bootstrap_node.js]).  So a parsed line that
    matches a noise pattern is dropped with the flag true and present with
    the flag false, a parsed line that matches none is present either way,
    and with the flag true the only line of the output that can match a
    noise pattern is the error-name line, which is never filtered. *)
Theorem noise_filter :
  forall (stack : str) (getSource : str -> str),
    (forall x, ~ In LF x -> ~ In LF (getSource x)) ->
    let parsed := parseLines (contentLines stack) getSource in
    let kept (flag : bool) :=
      if flag then filter (fun l => negb (isNoise l)) parsed else parsed in
    let name_line :=
      if hasErrorName (stackLinesOf stack) then [line0 (stackLinesOf stack)] else [] in
    let out (flag : bool) := split LF (normalizeStackTrace stack flag getSource) in
    (forall flag,
       out flag = [] :: name_line ++ match kept flag with [] => [[]] | _ :: _ => kept flag end)
    /\ (forall l, In l parsed -> noisy l -> ~ In l (kept true) /\ In l (out false))
    /\ (forall l, In l parsed -> ~ noisy l -> In l (out true) /\ In l (out false))
    /\ (forall l, In l (out true) -> noisy l -> In l name_line)
    /\ (forall l flag, In l name_line -> In l (out flag)).
Proof.
  intros stack g Hg parsed kept name_line out.
  assert (Hparsed : Forall (fun l => ~ In LF l) parsed).
  { apply parseLines_no_LF; [exact Hg | apply contentLines_no_LF]. }
  assert (Hkept : forall flag, Forall (fun l => ~ In LF l) (kept flag)).
  { intros [|]; [|exact Hparsed]. unfold kept. apply Forall_forall.
    intros l Hl. apply filter_In in Hl as [Hl _].
    rewrite Forall_forall in Hparsed. now apply Hparsed. }
  assert (Hout : forall flag,
            out flag = [] :: name_line ++
                       match kept flag with [] => [[]] | _ :: _ => kept flag end).
  { intros flag. unfold out, normalizeStackTrace, firstLineOf, name_line.
    change (normalizedLines stack flag g) with (kept flag).
    rewrite split_newline_app.
    destruct (hasErrorName (stackLinesOf stack)).
    - rewrite <- app_assoc, (split_line_app _ _ (line0_no_LF stack)).
      now rewrite (split_joined _ (Hkept flag)).
    - cbn [app]. now rewrite (split_joined _ (Hkept flag)). }
  assert (Hin : forall flag l, In l (kept flag) -> In l (out flag)).
  { intros flag l Hl. rewrite Hout. right. apply in_or_app. right.
    destruct (kept flag); [destruct Hl | exact Hl]. }
  split; [exact Hout|]. split; [|split; [|split]].
  - intros l Hl Hn. split; [|now apply (Hin false)].
    unfold kept. rewrite filter_In. intros [_ H].
    apply isNoise_noisy in Hn. rewrite Hn in H. discriminate.
  - intros l Hl Hn. split; [|now apply (Hin false)].
    apply (Hin true). unfold kept. apply filter_In. split; [exact Hl|].
    destruct (isNoise l) eqn:E; [|reflexivity].
    exfalso. now apply Hn, isNoise_noisy.
  - intros l Hl Hn. rewrite Hout in Hl. destruct Hl as [<-|Hl].
    + exfalso. now apply not_noisy_nil.
    + apply in_app_or in Hl as [Hl|Hl]; [exact Hl|]. exfalso.
      assert (Hk : In l (kept true) \/ l = []).
      { destruct (kept true); [right; now destruct Hl as [<-|[]] | now left]. }
      destruct Hk as [Hk| ->]; [|now apply not_noisy_nil].
      unfold kept in Hk. apply filter_In in Hk as [_ Hk].
      apply isNoise_noisy in Hn. rewrite Hn in Hk. discriminate.
  - intros l flag Hl. rewrite Hout. right. apply in_or_app. now left.
Qed.

Lemma noise_filter_witness :
  let stack := lit "    at foo (a.js:1:1)
    at process._tickCallback (internal/process/next_tick.js:188:7)" in
  let line := lit "  at process._tickCallback  <internal/process/next_tick.js:188:7>" in
  split LF (normalizeStackTrace stack true (fun x => x)) = [[]; lit "  at foo  <a.js:1:1>"]
  /\ In line (split LF (normalizeStackTrace stack false (fun x => x))).
Proof.
  cbv zeta.
  pose proof (noise_filter
    (lit "    at foo (a.js:1:1)
    at process._tickCallback (internal/process/next_tick.js:188:7)")
    (fun x => x) (fun x H => H)) as H.
  cbv zeta in H. destruct H as [H1 [H2 _]]. split.
  - refine (eq_trans (H1 true) _). vm_compute. reflexivity.
  - refine (proj2 (H2 (lit "  at process._tickCallback  <internal/process/next_tick.js:188:7>") _ _)).
    + vm_compute. auto.
    + left. exists (lit "  at process._tickCallback  <"), (lit "next_tick.js:188:7>").
      reflexivity.
Defined.

(* ================================================================= *)
(** ** The choice of the dialect *)




(** The reverse: a stack in the at-sign dialect with a later line in the
    shape of the bracket-call dialect. *)
Example dialect_selection_mixed :
  normalizeStackTrace (lit "bar@b.js:2:2
    at foo (a.js:1:1)") false (fun x => x)
  = lit "
  at bar  <b.js:2:2>
    at foo (a.js:1:1)".
Proof. vm_compute. reflexivity. Qed.
